(** * ethakka: naming engine, registration patcher, strategy registry

    A shallow embedding of the scaffolding core of the generator:
    [StringUtils] (utils/string-utils.ts), the [app.module.ts] patcher
    [updateAppModule] (architectures/nest/commands/module-command.ts),
    [DatabaseStrategyFactory.getStrategy]
    (common/database/database-strategy-factory.ts) and the module
    selection of [AllCommand.execute]
    (architectures/nest/commands/all-command.ts).

    A JavaScript string is modelled as the list of its code units, taken
    in the ASCII range: the case mappings act on the 26 letters and are the
    identity elsewhere, and the white-space class of the regular
    expressions is the ASCII one (tab, line feed, vertical tab, form feed,
    carriage return, space). *)

From Stdlib Require Import ZArith Ascii String.
From stdpp Require Import base list gmap.

Local Open Scope Z_scope.
Local Open Scope list_scope.

(** ** JavaScript strings *)

Module JS.

Abbreviation jsstring := (list ascii).

(** A string literal of the source. *)
Definition lit (s : string) : jsstring := list_ascii_of_string s.

Definition LF : ascii := "010"%char.

(** [lines.join("\n")]: the multi-line literals of the source. *)
Fixpoint unlines (ls : list jsstring) : jsstring :=
  match ls with
  | [] => []
  | [l] => l
  | l :: ls' => l ++ LF :: unlines ls'
  end.

Definition code (c : ascii) : nat := nat_of_ascii c.

Definition isUpper (c : ascii) : bool :=
  (Nat.leb 65 (code c) && Nat.leb (code c) 90)%bool.

Definition isLower (c : ascii) : bool :=
  (Nat.leb 97 (code c) && Nat.leb (code c) 122)%bool.

Definition upperChar (c : ascii) : ascii :=
  if isLower c then ascii_of_nat (code c - 32) else c.

Definition lowerChar (c : ascii) : ascii :=
  if isUpper c then ascii_of_nat (code c + 32) else c.

(** [s.toUpperCase()], [s.toLowerCase()] *)
Definition toUpperCase (s : jsstring) : jsstring := map upperChar s.
Definition toLowerCase (s : jsstring) : jsstring := map lowerChar s.

(** [s.charAt(0)]: the empty string when [s] is empty. *)
Definition charAt0 (s : jsstring) : jsstring := firstn 1 s.

(** [s.slice(1)] *)
Definition slice1 (s : jsstring) : jsstring := skipn 1 s.

(** [s.slice(0, -k)] for a positive [k]: the end index is
    [max (length - k) 0]. *)
Definition sliceEnd (s : jsstring) (k : nat) : jsstring :=
  firstn (length s - k) s.

(** [===] on strings. *)
Fixpoint strictEq (a b : jsstring) : bool :=
  match a, b with
  | [], [] => true
  | c :: a', d :: b' => (Ascii.eqb c d && strictEq a' b')%bool
  | _, _ => false
  end.

(** [s.startsWith(p)] *)
Fixpoint startsWith (s p : jsstring) {struct p} : bool :=
  match p, s with
  | [], _ => true
  | _ :: _, [] => false
  | c :: p', d :: s' => (Ascii.eqb c d && startsWith s' p')%bool
  end.

(** [s.endsWith(p)] *)
Definition endsWith (s p : jsstring) : bool :=
  startsWith (rev s) (rev p).

(** Offset of the first occurrence of [p] in [s]. *)
Fixpoint find (p s : jsstring) : option nat :=
  if startsWith s p then Some 0%nat
  else match s with
       | [] => None
       | _ :: s' => S <$> find p s'
       end.

(** Offset of the last occurrence of [p] in [s]. *)
Fixpoint findLast (p s : jsstring) : option nat :=
  match s with
  | [] => if startsWith [] p then Some 0%nat else None
  | _ :: s' =>
      match findLast p s' with
      | Some k => Some (S k)
      | None => if startsWith s p then Some 0%nat else None
      end
  end.

(** [s.includes(p)] *)
Definition includes (s p : jsstring) : bool :=
  match find p s with Some _ => true | None => false end.

(** An index argument is clamped to [0, length]. *)
Definition clamp (s : jsstring) (i : Z) : nat :=
  Z.to_nat (Z.min (Z.max i 0) (Z.of_nat (length s))).

(** [s.indexOf(p, position)]: [-1] when there is no occurrence at or
    after [position]. *)
Definition indexOf (s p : jsstring) (position : Z) : Z :=
  let start := clamp s position in
  match find p (skipn start s) with
  | Some k => Z.of_nat (start + k)
  | None => -1
  end.

(** [s.lastIndexOf(p)] *)
Definition lastIndexOf (s p : jsstring) : Z :=
  match findLast p s with
  | Some k => Z.of_nat k
  | None => -1
  end.

(** [s.substring(a, b)]: both ends clamped, swapped when [a > b]. *)
Definition substring (s : jsstring) (a b : Z) : jsstring :=
  let a' := clamp s a in
  let b' := clamp s b in
  firstn (Nat.max a' b' - Nat.min a' b') (skipn (Nat.min a' b') s).

(** [s.substring(a)] *)
Definition substringFrom (s : jsstring) (a : Z) : jsstring :=
  skipn (clamp s a) s.

(** The replacement text of [String.prototype.replace] with a string
    pattern (GetSubstitution without captures): [$$] is a dollar sign,
    [$&] the match, [$`] the text before it, [$'] the text after it; any
    other dollar sign stands for itself. *)
Fixpoint getSubstitution (matched before after template : jsstring)
  : jsstring :=
  match template with
  | [] => []
  | c :: t =>
      if Ascii.eqb c "$"%char then
        match t with
        | d :: t' =>
            if Ascii.eqb d "$"%char then
              "$"%char :: getSubstitution matched before after t'
            else if Ascii.eqb d "&"%char then
              matched ++ getSubstitution matched before after t'
            else if Ascii.eqb d "`"%char then
              before ++ getSubstitution matched before after t'
            else if Ascii.eqb d "'"%char then
              after ++ getSubstitution matched before after t'
            else c :: getSubstitution matched before after t
        | [] => [c]
        end
      else c :: getSubstitution matched before after t
  end.

(** [s.replace(pat, template)] with a string pattern: the first
    occurrence only. *)
Definition replace (s pat template : jsstring) : jsstring :=
  match find pat s with
  | None => s
  | Some n =>
      let before := firstn n s in
      let after := skipn (n + length pat) s in
      before ++ getSubstitution pat before after template ++ after
  end.

(** [s.split(/[...]/)] for a character class: the pieces between the
    matching characters; the empty string gives one empty piece. *)
Fixpoint splitOn (sep : ascii -> bool) (s : jsstring) : list jsstring :=
  match s with
  | [] => [[]]
  | c :: s' =>
      if sep c then [] :: splitOn sep s'
      else match splitOn sep s' with
           | w :: ws => (c :: w) :: ws
           | [] => [[c]]
           end
  end.

(** [\s] *)
Definition isSpace (c : ascii) : bool :=
  let n := code c in
  (Nat.eqb n 32 || (Nat.leb 9 n && Nat.leb n 13))%bool.

(** [s.replace(/([a-z])([A-Z])/g, '$1' + sep + '$2')]: a separator
    between a lower-case letter and the upper-case letter after it; the
    search goes on after the pair. *)
Fixpoint separateLowerUpper (sep : ascii) (s : jsstring) : jsstring :=
  match s with
  | [] => []
  | c :: t =>
      match t with
      | [] => [c]
      | d :: rest =>
          if (isLower c && isUpper d)%bool
          then c :: sep :: d :: separateLowerUpper sep rest
          else c :: separateLowerUpper sep t
      end
  end.

(** [s.replace(/[...]+/g, sep)] for a character class: every maximal
    run of the class becomes one [sep]; [inRun] tells that the character
    before was of the class. *)
Fixpoint replaceRuns (cls : ascii -> bool) (sep : ascii) (inRun : bool)
    (s : jsstring) : jsstring :=
  match s with
  | [] => []
  | c :: t =>
      if cls c then
        if inRun then replaceRuns cls sep true t
        else sep :: replaceRuns cls sep true t
      else c :: replaceRuns cls sep false t
  end.

(** [s.trimStart()], [s.trimEnd()], [s.trim()] *)
Fixpoint trimStart (s : jsstring) : jsstring :=
  match s with
  | [] => []
  | c :: t => if isSpace c then trimStart t else s
  end.

Fixpoint trimEnd (s : jsstring) : jsstring :=
  match s with
  | [] => []
  | c :: t =>
      match trimEnd t with
      | [] => if isSpace c then [] else [c]
      | t' => c :: t'
      end
  end.

Definition trim (s : jsstring) : jsstring := trimStart (trimEnd s).

(** [a.join(sep)] *)
Fixpoint join (sep : jsstring) (a : list jsstring) : jsstring :=
  match a with
  | [] => []
  | [x] => x
  | x :: a' => x ++ sep ++ join sep a'
  end.

(** [p] occurs in [s]: what [s.includes(p)] decides. *)
Definition occurs (p s : jsstring) : Prop :=
  exists a b, s = a ++ p ++ b.

End JS.

Import JS.

(** ** utils/string-utils.ts *)

Module StringUtils.

(** The class [[-_\s]] of [toPascalCase]. *)
Definition isSeparator (c : ascii) : bool :=
  (Ascii.eqb c "-"%char || Ascii.eqb c "_"%char || isSpace c)%bool.

(** No character of [s] is a separator of [toPascalCase]. *)
Abbreviation separatorFree s :=
  (Forall (fun c => isSeparator c = false) s).

(** [word.charAt(0).toUpperCase() + word.slice(1).toLowerCase()] *)
Definition capitalize (word : jsstring) : jsstring :=
  toUpperCase (charAt0 word) ++ toLowerCase (slice1 word).

Definition toPascalCase (str : jsstring) : jsstring :=
  concat (map capitalize (splitOn isSeparator str)).

Definition toCamelCase (str : jsstring) : jsstring :=
  let pascal := toPascalCase str in
  toLowerCase (charAt0 pascal) ++ slice1 pascal.

Definition getSingular (str : jsstring) : jsstring :=
  if endsWith str (lit "ies") then sliceEnd str 3 ++ lit "y"
  else if (endsWith str (lit "s") && negb (endsWith str (lit "ss")))%bool
       then sliceEnd str 1
       else str.

Definition getPlural (str : jsstring) : jsstring :=
  if endsWith str (lit "y") then sliceEnd str 1 ++ lit "ies"
  else if negb (endsWith str (lit "s")) then str ++ lit "s"
       else str.

(** The class [[\s_]] of [toKebabCase] and the class [[\s-]] of
    [toSnakeCase]. *)
Definition isSpaceOrUnderscore (c : ascii) : bool :=
  (isSpace c || Ascii.eqb c "_"%char)%bool.

Definition isSpaceOrHyphen (c : ascii) : bool :=
  (isSpace c || Ascii.eqb c "-"%char)%bool.

Definition toKebabCase (str : jsstring) : jsstring :=
  toLowerCase
    (replaceRuns isSpaceOrUnderscore "-"%char false
       (separateLowerUpper "-"%char str)).

Definition toSnakeCase (str : jsstring) : jsstring :=
  toLowerCase
    (replaceRuns isSpaceOrHyphen "_"%char false
       (separateLowerUpper "_"%char str)).

(** A word of at least two lower-case letters. *)
Definition lowerWord (w : jsstring) : Prop :=
  (2 <= length w)%nat /\ Forall (fun c => isLower c = true) w.

End StringUtils.

Import StringUtils.

(** ** Console output of [BaseCommand] *)

Inductive LogEntry : Type :=
| LogSuccess (message : jsstring)
| LogError (message : jsstring)
| LogInfo (message : jsstring)
| LogWarning (message : jsstring).

(** ** architectures/nest/commands/module-command.ts *)

Module ModuleCommand.

(** The [validate] function of the name prompt:
    [/^([a-z\-\_\d])+$/.test(input)]. *)
Definition isNameChar (c : ascii) : bool :=
  (isLower c || Ascii.eqb c "-"%char || Ascii.eqb c "_"%char
   || (Nat.leb 48 (code c) && Nat.leb (code c) 57))%bool.

Definition validName (input : jsstring) : bool :=
  (negb (Nat.eqb (length input) 0) && forallb isNameChar input)%bool.

(** A letter or a digit. *)
Definition isAlnum (c : ascii) : bool :=
  (isLower c || isUpper c
   || (Nat.leb 48 (code c) && Nat.leb (code c) 57))%bool.

(** [`${className}Module`] for
    [className = toPascalCase(getSingular(moduleName))]. *)
Definition moduleClassNameOf (moduleName : jsstring) : jsstring :=
  let singularName := getSingular moduleName in
  let className := toPascalCase singularName in
  className ++ lit "Module".

(** [`import { ${moduleClassName} } from
     './${moduleName}/${moduleName}.module';`] *)
Definition importStatementOf (moduleClassName moduleName : jsstring)
  : jsstring :=
  lit "import { " ++ moduleClassName ++ lit " } from './" ++ moduleName
    ++ lit "/" ++ moduleName ++ lit ".module';".

Definition alreadyImported (moduleClassName : jsstring) : LogEntry :=
  LogWarning (moduleClassName ++ lit " is already imported in AppModule.").

Definition anchorNotFound : LogEntry :=
  LogWarning
    (lit "Could not find imports array in AppModule. Please add it manually.").

(** The step "Add import statement": after the [;] that follows the
    last [import], or in front when the text has no [import {]. *)
Definition addImportStatement (updatedContent importStatement : jsstring)
  : jsstring :=
  if includes updatedContent (lit "import {") then
    let lastImportIndex := lastIndexOf updatedContent (lit "import") in
    let endOfImportIndex :=
      (indexOf updatedContent (lit ";") lastImportIndex + 1)%Z in
    substring updatedContent 0 endOfImportIndex
      ++ [LF] ++ importStatement
      ++ substringFrom updatedContent endOfImportIndex
  else importStatement ++ [LF] ++ updatedContent.

(** The step "Add to imports array in the @Module decorator"; the
    second component is what is logged. *)
Definition addToImportsArray (updatedContent moduleClassName : jsstring)
  : jsstring * list LogEntry :=
  if includes updatedContent (lit "imports: [") then
    (replace updatedContent (lit "imports: [")
       (lit "imports: [" ++ [LF] ++ lit "    " ++ moduleClassName
          ++ lit ","),
     [])
  else if includes updatedContent (lit "imports: [],") then
    (replace updatedContent (lit "imports: [],")
       (lit "imports: [" ++ moduleClassName ++ lit "],"),
     [])
  else (updatedContent, [anchorNotFound]).

(** The body of the updater that [updateAppModule] hands to
    [FileUtils.updateFile], with its two constants [importStatement]
    and [moduleClassName] as arguments; the second component is what
    it logs. *)
Definition patch (content importStatement moduleClassName : jsstring)
  : jsstring * list LogEntry :=
  if includes content moduleClassName then
    (content, [alreadyImported moduleClassName])
  else
    let updatedContent := content in
    let updatedContent := addImportStatement updatedContent importStatement in
    addToImportsArray updatedContent moduleClassName.

(** The updater of [updateAppModule(moduleName)]. *)
Definition updater (moduleName content : jsstring)
  : jsstring * list LogEntry :=
  let moduleClassName := moduleClassNameOf moduleName in
  let importStatement := importStatementOf moduleClassName moduleName in
  patch content importStatement moduleClassName.

(** [updateAppModule]: [appModule] is the text of [src/app.module.ts],
    [None] when the file does not exist. *)
Definition updateAppModule (appModule : option jsstring)
  (moduleName : jsstring) : option jsstring * list LogEntry :=
  match appModule with
  | None =>
      (None,
       [LogWarning
          (lit "Warning: app.module.ts not found. Could not update app module.")])
  | Some content =>
      let '(updatedContent, log) := updater moduleName content in
      (Some updatedContent, log)
  end.


(** The model that [updatePrismaSchema] appends to [schema.prisma]. *)
Definition prismaModel (className : jsstring) : jsstring :=
  unlines [
    lit "";
    lit "";
    lit "model " ++ className ++ lit " {";
    lit "  id        String   @id @default(uuid())";
    lit "  ";
    lit "  // Add your fields here";
    lit "  // Example:";
    lit "  // name      String";
    lit "  // email     String?";
    lit "  // isActive  Boolean @default(true)";
    lit "  ";
    lit "  createdAt DateTime @default(now())";
    lit "  updatedAt DateTime @updatedAt";
    lit "}";
    lit ""
  ].

(** The updater of [updatePrismaSchema(moduleName)]. *)
Definition schemaUpdater (moduleName content : jsstring)
  : jsstring * list LogEntry :=
  let singularName := getSingular moduleName in
  let className := toPascalCase singularName in
  if includes content (lit "model " ++ className) then
    (content,
     [LogWarning
        (lit "Model " ++ className ++ lit " already exists in Prisma schema.")])
  else (content ++ prismaModel className, []).

(** [updatePrismaSchema]: [schema] is the text of
    [prisma/schema.prisma], [None] when the file does not exist. *)
Definition updatePrismaSchema (schema : option jsstring)
  (moduleName : jsstring) : option jsstring * list LogEntry :=
  match schema with
  | None =>
      (None,
       [LogWarning
          (lit "Warning: schema.prisma not found. Could not update schema.")])
  | Some content =>
      let '(updatedContent, log) := schemaUpdater moduleName content in
      (Some updatedContent, log)
  end.

End ModuleCommand.

(** ** architectures/nest/commands/auth-command.ts *)

Module AuthCommand.

Import ModuleCommand.

(** The updater of [updateAppModule]: the one of [ModuleCommand] with
    the constants of the authentication module. *)
Definition updater (content : jsstring) : jsstring * list LogEntry :=
  let importStatement :=
    lit "import { AuthModule } from './auth/auth.module';" in
  patch content importStatement (lit "AuthModule").

End AuthCommand.

(** ** common/database/database-strategy-factory.ts *)

Module DatabaseStrategyFactory.

Inductive DatabaseStrategy : Type :=
| PrismaStrategy.

(** A call either returns or throws [new Error(message)]. *)
Inductive outcome (A : Type) : Type :=
| Return (value : A)
| ThrowError (message : jsstring).
Arguments Return {A} value.
Arguments ThrowError {A} message.

Definition getStrategy (name : jsstring) : outcome DatabaseStrategy :=
  if strictEq (toLowerCase name) (lit "prisma") then Return PrismaStrategy
  else ThrowError (lit "Unsupported database strategy: " ++ name).

(** The keys the [switch] of [getStrategy] has a case for. *)
Definition validKeys : list jsstring := [lit "prisma"].

(** [PrismaStrategy]: [getName], [getDependencies] and
    [getDevDependencies], the objects as their entries in order. *)
Definition getName (strategy : DatabaseStrategy) : jsstring :=
  match strategy with PrismaStrategy => lit "Prisma" end.

Definition getDependencies (strategy : DatabaseStrategy)
  : list (jsstring * jsstring) :=
  match strategy with
  | PrismaStrategy => [(lit "@prisma/client", lit "^5.0.0")]
  end.

Definition getDevDependencies (strategy : DatabaseStrategy)
  : list (jsstring * jsstring) :=
  match strategy with
  | PrismaStrategy => [(lit "prisma", lit "^5.0.0")]
  end.

(** The values of the choices that [promptForStrategy] offers. *)
Definition promptChoices : list jsstring := [lit "prisma"].

(** [promptForStrategy], for the value [answer] that the prompt
    returns. *)
Definition promptForStrategy (answer : jsstring)
  : outcome DatabaseStrategy :=
  getStrategy answer.

End DatabaseStrategyFactory.

(** ** architectures/nest/commands/database-command.ts *)

Module DatabaseCommand.

Import DatabaseStrategyFactory.

(** The strategy of [execute] (after the test for a NestJS project):
    [dbType] is [options.type], [answer] the value the prompt returns
    when it is asked; the second component is what is logged. *)
Definition resolveStrategy (dbType : option jsstring) (answer : jsstring)
  : outcome DatabaseStrategy * list LogEntry :=
  match dbType with
  | Some type =>
      if Nat.eqb (length type) 0 then (promptForStrategy answer, [])
      else
        match getStrategy type with
        | Return databaseStrategy => (Return databaseStrategy, [])
        | ThrowError message =>
            (promptForStrategy answer, [LogError (lit "Error: " ++ message)])
        end
  | None => (promptForStrategy answer, [])
  end.

(** The part of [package.json] that [updatePackageJson] works on: the
    two dependency objects, each absent or an object of strings. *)
Record PackageJson : Type := {
  dependencies : option (gmap jsstring jsstring);
  devDependencies : option (gmap jsstring jsstring)
}.

(** [for (const [name, version] of Object.entries(entries))
       target[name] = version;] *)
Definition assignAll (target : gmap jsstring jsstring)
  (entries : list (jsstring * jsstring)) : gmap jsstring jsstring :=
  foldl (fun target entry => <[entry.1 := entry.2]> target) target entries.

(** [updatePackageJson]: [packageJson] is the object of
    [package.json], [None] when the file does not exist. *)
Definition updatePackageJson (packageJson : option PackageJson)
  (databaseStrategy : DatabaseStrategy)
  : option PackageJson * list LogEntry :=
  match packageJson with
  | None =>
      (None,
       [LogWarning
          (lit "Warning: package.json not found. Could not update dependencies.")])
  | Some packageJson =>
      let deps := default ∅ (dependencies packageJson) in
      let deps := assignAll deps (getDependencies databaseStrategy) in
      let devDeps := default ∅ (devDependencies packageJson) in
      let devDeps := assignAll devDeps (getDevDependencies databaseStrategy) in
      (Some {| dependencies := Some deps; devDependencies := Some devDeps |},
       [])
  end.

End DatabaseCommand.

(** ** architectures/nest/commands/all-command.ts *)

Module AllCommand.

(** Arrays are objects: a heap of arrays, addressed by position. *)
Abbreviation ref := nat.
Abbreviation heap := (list (list jsstring)).

Definition readArray (h : heap) (r : ref) : list jsstring :=
  default [] (h !! r).

(** [a.includes(x)] *)
Definition arrayIncludes (h : heap) (r : ref) (x : jsstring) : bool :=
  existsb (strictEq x) (readArray h r).

(** [a.filter(p)]: a new array; [a] is left as it is. *)
Definition arrayFilter (h : heap) (r : ref) (p : jsstring -> bool)
  : heap * ref :=
  (h ++ [List.filter p (readArray h r)], length h).

(** [a.unshift(x)]: [a] itself gets [x] in front. *)
Definition arrayUnshift (h : heap) (r : ref) (x : jsstring) : heap :=
  alter (cons x) r h.

Record ProjectDetails : Type := {
  name : jsstring;
  auth : bool;
  database : option jsstring;
  modules : ref
}.

Definition skippingUser : LogEntry :=
  LogWarning
    (lit "Skipping 'user' module since it's already created by the authentication module.").

(** Step 5 of [execute], from [let modulesToCreate] up to the loop: the
    heap afterwards, the array [modulesToCreate] refers to, and the
    log. *)
Definition selectModules (h : heap) (projectDetails : ProjectDetails)
  : heap * ref * list LogEntry :=
  let modulesToCreate := modules projectDetails in
  if auth projectDetails then
    if (arrayIncludes h modulesToCreate (lit "user")
        || arrayIncludes h modulesToCreate (lit "users"))%bool
    then
      let '(h1, filtered) :=
        arrayFilter h modulesToCreate
          (fun module =>
             (negb (strictEq module (lit "user"))
              && negb (strictEq module (lit "users")))%bool) in
      let h2 := arrayUnshift h1 filtered (lit "user") in
      (h2, modulesToCreate, [skippingUser])
    else
      (arrayUnshift h modulesToCreate (lit "user"), modulesToCreate, [])
  else (h, modulesToCreate, []).

(** Step 5 of [execute]: when [modules] is not empty, the names that
    [ModuleCommand.execute] is called with, in order ([crud] is [true]
    in each call). *)
Definition modulesExecuted (h : heap) (projectDetails : ProjectDetails)
  : list jsstring :=
  if Nat.ltb 0 (length (readArray h (modules projectDetails))) then
    let '(h', modulesToCreate, _) := selectModules h projectDetails in
    map (fun moduleName => getPlural moduleName)
      (readArray h' modulesToCreate)
  else [].

(** The guard of [ModuleCommand.execute] that refuses a user module
    when [src/user] or [src/users] exists ([moduleName] is the name
    after [getPlural]). *)
Definition userModuleRefused (moduleName : jsstring)
  (userExists usersExists : bool) : bool :=
  let normalizedName := toLowerCase moduleName in
  ((strictEq normalizedName (lit "users")
    || strictEq normalizedName (lit "user"))
   && (userExists || usersExists))%bool.

(** The [filter] of the modules prompt of [promptForDetails]:
    [input.split(",").map((m) => m.trim()).filter((m) => m)], and the
    empty list for an empty input. *)
Definition modulesFilter (input : jsstring) : list jsstring :=
  if Nat.eqb (length input) 0 then []
  else
    List.filter (fun m => negb (Nat.eqb (length m) 0))
      (map (fun m => trim m) (splitOn (Ascii.eqb ","%char) input)).

(** A module name as [modulesFilter] leaves it: not empty, without a
    comma, without white space at either end. *)
Definition cleanName (m : jsstring) : Prop :=
  m <> []
  /\ (","%char ∉ m)
  /\ (forall c t, m = c :: t -> isSpace c = false)
  /\ (forall t c, m = t ++ [c] -> isSpace c = false).

(** The modules line of the summary that [execute] prints: empty for
    an empty array, else [- Modules: ] and
    [projectDetails.modules.join(", ")]. *)
Definition modulesSummary (h : heap) (projectDetails : ProjectDetails)
  : jsstring :=
  if Nat.eqb (length (readArray h (modules projectDetails))) 0 then []
  else
    lit "- Modules: "
      ++ join (lit ", ") (readArray h (modules projectDetails)).

End AllCommand.

(** ** Sample inputs *)

Module Samples.

Import AllCommand.

(** An [app.module.ts] whose registration list is the empty literal. *)
Definition appModuleEmptyImports : jsstring :=
  unlines [
    lit "import { Module } from '@nestjs/common';";
    lit "";
    lit "@Module({";
    lit "  imports: [],";
    lit "  controllers: [],";
    lit "  providers: [],";
    lit "})";
    lit "export class AppModule {}";
    lit ""
  ].

(** What the updater of [updateAppModule] returns for it and the
    module name [foo]. *)
Definition appModuleEmptyImportsPatched : jsstring :=
  unlines [
    lit "";
    lit "import { FooModule } from './foo/foo.module';import { Module } from '@nestjs/common';";
    lit "";
    lit "@Module({";
    lit "  imports: [";
    lit "    FooModule,],";
    lit "  controllers: [],";
    lit "  providers: [],";
    lit "})";
    lit "export class AppModule {}";
    lit ""
  ].


(** An [app.module.ts] with a registration entry that has a statement
    inside. *)
Definition appModuleWithFactory : jsstring :=
  unlines [
    lit "import { Module } from '@nestjs/common';";
    lit "import { ConfigModule } from '@nestjs/config';";
    lit "";
    lit "@Module({";
    lit "  imports: [";
    lit "    ConfigModule.forRoot({ load: [() => { return {}; }] }),";
    lit "  ],";
    lit "})";
    lit "export class AppModule {}";
    lit ""
  ].

(** The project details with [name: shop], [auth: true] and the array
    at address 0 as [modules]. *)
Definition request : ProjectDetails :=
  {| name := lit "shop"; auth := true; database := None; modules := 0 |}.

(** [modules: [posts, users]] *)
Definition requestHeap : heap := [[lit "posts"; lit "users"]].

(** [modules: [posts]] *)
Definition requestHeapWithoutUser : heap := [[lit "posts"]].

End Samples.

Local Close Scope Z_scope.

(** * Properties *)

(** ** Characters *)

Ltac each_char c := destruct c as [[] [] [] [] [] [] [] []].

Lemma lowerChar_upperChar c : lowerChar (upperChar c) = lowerChar c.
Proof. each_char c; reflexivity. Qed.

Lemma lowerChar_idem c : lowerChar (lowerChar c) = lowerChar c.
Proof. each_char c; reflexivity. Qed.

Lemma isSeparator_upperChar c : isSeparator (upperChar c) = isSeparator c.
Proof. each_char c; reflexivity. Qed.

Lemma isSeparator_lowerChar c : isSeparator (lowerChar c) = isSeparator c.
Proof. each_char c; reflexivity. Qed.

Lemma toLowerCase_idem s : toLowerCase (toLowerCase s) = toLowerCase s.
Proof.
  unfold toLowerCase. rewrite map_map.
  apply map_ext. intros c. apply lowerChar_idem.
Qed.

Lemma toLowerCase_app s t :
  toLowerCase (s ++ t) = toLowerCase s ++ toLowerCase t.
Proof. apply map_app. Qed.

(** ** Prefixes, suffixes and occurrences *)

Lemma startsWith_prefix s p : startsWith s p = true <-> p `prefix_of` s.
Proof.
  revert s. induction p as [|c p IH]; intros s; simpl.
  - split; [intros _; apply prefix_nil | reflexivity].
  - destruct s as [|d s].
    + split; [discriminate | intros H; apply prefix_nil_not in H; destruct H].
    + rewrite andb_true_iff, Ascii.eqb_eq, IH. split.
      * intros [-> H]. by apply prefix_cons.
      * intros H. split.
        -- by apply prefix_cons_inv_1 in H.
        -- by apply prefix_cons_inv_2 in H.
Qed.

Lemma endsWith_suffix s p : endsWith s p = true <-> p `suffix_of` s.
Proof.
  unfold endsWith. rewrite startsWith_prefix. split.
  - intros [k Hk]. exists (rev k).
    rewrite <- (rev_involutive s), Hk, rev_app_distr, rev_involutive.
    reflexivity.
  - intros [k ->]. exists (rev k). apply rev_app_distr.
Qed.

Lemma endsWith_app s p : endsWith (s ++ p) p = true.
Proof. apply endsWith_suffix. by exists s. Qed.

Lemma endsWith_false s p :
  endsWith s p = false <-> ~ p `suffix_of` s.
Proof.
  rewrite <- endsWith_suffix. destruct (endsWith s p); intuition congruence.
Qed.

Lemma sliceEnd_app s p k : length p = k -> sliceEnd (s ++ p) k = s.
Proof.
  intros <-. unfold sliceEnd. rewrite length_app.
  replace (length s + length p - length p) with (length s) by lia.
  apply take_app_length.
Qed.

Lemma find_Some p s n :
  find p s = Some n ->
  exists a b, s = a ++ p ++ b /\ length a = n.
Proof.
  revert n. induction s as [|c s IH]; intros n; simpl.
  - destruct (startsWith [] p) eqn:E; [|discriminate].
    intros [= <-]. apply startsWith_prefix in E as [k Hk].
    exists [], k. by split.
  - destruct (startsWith (c :: s) p) eqn:E.
    + intros [= <-]. apply startsWith_prefix in E as [k Hk].
      exists [], k. by split.
    + destruct (find p s) as [m|] eqn:F; [|discriminate].
      intros [= <-]. destruct (IH m eq_refl) as (a & b & -> & <-).
      exists (c :: a), b. by split.
Qed.

Lemma find_None p s : find p s = None -> ~ occurs p s.
Proof.
  induction s as [|c s IH]; simpl.
  - destruct (startsWith [] p) eqn:E; [discriminate|].
    intros _ (a & b & H). destruct a; [|discriminate].
    assert (startsWith [] p = true) as E'
      by (apply startsWith_prefix; exists b; exact H).
    congruence.
  - destruct (startsWith (c :: s) p) eqn:E; [discriminate|].
    destruct (find p s) eqn:F; [discriminate|].
    intros _ (a & b & H). destruct a as [|d a].
    + assert (startsWith (c :: s) p = true) as E'
        by (apply startsWith_prefix; exists b; exact H).
      congruence.
    + injection H as _ H. apply IH; [done|]. by exists a, b.
Qed.

Lemma includes_occurs s p : includes s p = true <-> occurs p s.
Proof.
  unfold includes. destruct (find p s) as [n|] eqn:F.
  - split; [intros _|reflexivity].
    destruct (find_Some _ _ _ F) as (a & b & H & _). by exists a, b.
  - split; [discriminate|]. intros H. by apply find_None in F.
Qed.

Lemma includes_false s p : includes s p = false <-> ~ occurs p s.
Proof.
  rewrite <- includes_occurs. destruct (includes s p); intuition congruence.
Qed.

Lemma occurs_app_l p s t : occurs p s -> occurs p (s ++ t).
Proof.
  intros (a & b & ->). exists a, (b ++ t). by rewrite <- !app_assoc.
Qed.

Lemma occurs_app_r p s t : occurs p t -> occurs p (s ++ t).
Proof.
  intros (a & b & ->). exists (s ++ a), b. by rewrite <- !app_assoc.
Qed.

Lemma occurs_refl p : occurs p p.
Proof. exists [], []. by rewrite app_nil_r. Qed.

Lemma occurs_trans p q s : occurs p q -> occurs q s -> occurs p s.
Proof.
  intros (a & b & ->) (a' & b' & ->).
  exists (a' ++ a), (b ++ b'). by rewrite <- !app_assoc.
Qed.

(** ** Pluralization (C4, C5) *)

(** Normalises [endsWith] tests of a literal against a text that ends
    in a literal. *)
Ltac ends :=
  unfold endsWith, lit in *; simpl in *;
  rewrite ?rev_app_distr in *; simpl in *.

Lemma getPlural_y stem : getPlural (stem ++ lit "y") = stem ++ lit "ies".
Proof.
  unfold getPlural. rewrite endsWith_app. by rewrite sliceEnd_app.
Qed.

Lemma getPlural_s stem : getPlural (stem ++ lit "s") = stem ++ lit "s".
Proof.
  unfold getPlural. rewrite endsWith_app.
  replace (endsWith (stem ++ lit "s") (lit "y")) with false by (by ends).
  reflexivity.
Qed.

Lemma getPlural_other x :
  endsWith x (lit "y") = false -> endsWith x (lit "s") = false ->
  getPlural x = x ++ lit "s".
Proof. unfold getPlural. by intros -> ->. Qed.

Lemma getSingular_ies stem :
  getSingular (stem ++ lit "ies") = stem ++ lit "y".
Proof.
  unfold getSingular. rewrite endsWith_app. by rewrite sliceEnd_app.
Qed.

Lemma getSingular_ss stem :
  getSingular (stem ++ lit "ss") = stem ++ lit "ss".
Proof.
  unfold getSingular. rewrite endsWith_app.
  replace (endsWith (stem ++ lit "ss") (lit "ies")) with false by (by ends).
  rewrite andb_false_r. reflexivity.
Qed.

Lemma getSingular_s stem :
  endsWith stem (lit "s") = false -> endsWith stem (lit "ie") = false ->
  getSingular (stem ++ lit "s") = stem.
Proof.
  intros Hs Hie. unfold getSingular.
  replace (endsWith (stem ++ lit "s") (lit "ies")) with false
    by (by ends).
  replace (endsWith (stem ++ lit "s") (lit "ss")) with false
    by (by ends).
  rewrite endsWith_app. simpl. by rewrite sliceEnd_app.
Qed.

Lemma getSingular_other x :
  endsWith x (lit "s") = false -> getSingular x = x.
Proof.
  intros Hs. unfold getSingular. rewrite Hs.
  destruct (endsWith x (lit "ies")) eqn:E; [|reflexivity].
  apply endsWith_suffix in E as [k ->].
  replace (k ++ lit "ies") with ((k ++ lit "ie") ++ lit "s") in Hs
    by (by rewrite <- app_assoc).
  by rewrite endsWith_app in Hs.
Qed.

Import ModuleCommand.

(** C4, as stated, fails: a token that ends in [ss] is not pluralized by
    appending [s]; [getPlural] returns every token that ends in [s] as it
    is. *)
Lemma C4_getPlural_ss_counterexample :
  endsWith (lit "class") (lit "ss") = true
  /\ getPlural (lit "class") = lit "class"
  /\ ~ (forall x, endsWith x (lit "ss") = true -> getPlural x = x ++ lit "s").
Proof.
  split; [reflexivity|]. split; [reflexivity|].
  intros H. specialize (H (lit "class") eq_refl). discriminate H.
Qed.

(** C4 (amended): the rule set of [getPlural] and [getSingular].  A
    trailing [y] pluralizes to [ies] and a trailing [ies] singularizes to
    [y]; a token that ends in [s], but in neither [ss] nor [ies], is
    singularized by stripping the final [s]; a token that ends in [s]
    (in [ss] too) is its own plural, and a token that ends in [ss] its
    own singular; a token that ends in neither [y] nor [s] is pluralized
    by appending [s] and is its own singular. *)
Theorem C4_pluralization_rules (stem x : jsstring) :
  getPlural (stem ++ lit "y") = stem ++ lit "ies"
  /\ getSingular (stem ++ lit "ies") = stem ++ lit "y"
  /\ (endsWith stem (lit "s") = false ->
      endsWith stem (lit "ie") = false ->
      getSingular (stem ++ lit "s") = stem)
  /\ getPlural (stem ++ lit "s") = stem ++ lit "s"
  /\ getSingular (stem ++ lit "ss") = stem ++ lit "ss"
  /\ (endsWith x (lit "y") = false ->
      endsWith x (lit "s") = false ->
      getPlural x = x ++ lit "s" /\ getSingular x = x).
Proof.
  split; [apply getPlural_y|].
  split; [apply getSingular_ies|].
  split; [apply getSingular_s|].
  split; [apply getPlural_s|].
  split; [apply getSingular_ss|].
  intros Hy Hs. split.
  - by apply getPlural_other.
  - by apply getSingular_other.
Qed.

Lemma C4_pluralization_rules_witness :
  getSingular (lit "invoices") = lit "invoice"
  /\ getPlural (lit "invoice") = lit "invoices".
Proof.
  destruct (C4_pluralization_rules (lit "invoice") (lit "invoice"))
    as (_ & _ & Hs & _ & _ & Hother).
  split.
  - exact (Hs eq_refl eq_refl).
  - exact (proj1 (Hother eq_refl eq_refl)).
Defined.

(** C5, as stated, fails on a regular noun: the plural of [movie] is
    [movies], whose singular is [movy]. *)
Lemma C5_movie_counterexample :
  validName (lit "movie") = true
  /\ getSingular (getPlural (lit "movie")) = lit "movy"
  /\ ~ (forall x, validName x = true ->
          getSingular (getPlural x) = x
          /\ getPlural (getSingular (getPlural x)) = getPlural x).
Proof.
  split; [reflexivity|]. split; [reflexivity|].
  intros H. destruct (H (lit "movie") eq_refl) as [H1 _]. discriminate H1.
Qed.

Lemma app_lit_neq (s t u : jsstring) : t <> u -> s ++ t <> s ++ u.
Proof. intros H E. by apply app_inv_head in E. Qed.

Lemma app_longer (s t : jsstring) : t <> [] -> s ++ t <> s.
Proof.
  intros H E. apply (f_equal length) in E. rewrite length_app in E.
  destruct t; [done|]. simpl in E. lia.
Qed.

(** The three ways a token can end, as [getPlural] tells them apart. *)
Lemma ending_cases x :
  (exists stem, x = stem ++ lit "y")
  \/ (exists stem, x = stem ++ lit "s")
  \/ (endsWith x (lit "y") = false /\ endsWith x (lit "s") = false).
Proof.
  destruct (endsWith x (lit "y")) eqn:Ey.
  { left. apply endsWith_suffix in Ey as [k ->]. by exists k. }
  destruct (endsWith x (lit "s")) eqn:Es.
  { right; left. apply endsWith_suffix in Es as [k ->]. by exists k. }
  by right; right.
Qed.

Lemma getSingular_getPlural_iff x :
  getSingular (getPlural x) = x
  <-> endsWith x (lit "ie") = false
      /\ (endsWith x (lit "s") = true -> endsWith x (lit "ss") = true).
Proof.
  destruct (ending_cases x) as [[stem ->] | [[stem ->] | [Hy Hs]]].
  - rewrite getPlural_y, getSingular_ies. split; [intros _|done].
    split; [by ends|]. intros H. by ends.
  - rewrite getPlural_s.
    destruct (endsWith stem (lit "s")) eqn:Es.
    { apply endsWith_suffix in Es as [t ->]. rewrite <- app_assoc.
      change (lit "s" ++ lit "s") with (lit "ss").
      rewrite getSingular_ss. split; [intros _|done].
      split; [by ends|]. intros _. apply endsWith_app. }
    assert (endsWith (stem ++ lit "s") (lit "ss") = false) as Hss
      by (by ends).
    assert (endsWith (stem ++ lit "s") (lit "s") = true) as Hs1
      by apply endsWith_app.
    destruct (endsWith stem (lit "ie")) eqn:Eie.
    + apply endsWith_suffix in Eie as [t ->].
      rewrite <- app_assoc in *.
      change (lit "ie" ++ lit "s") with (lit "ies") in *.
      rewrite getSingular_ies. split.
      * intros H. by apply app_lit_neq in H.
      * intros [_ H]. rewrite (H Hs1) in Hss. discriminate.
    + rewrite (getSingular_s _ Es Eie). split.
      * intros H. symmetry in H. by apply app_longer in H.
      * intros [_ H]. rewrite (H Hs1) in Hss. discriminate.
  - rewrite (getPlural_other _ Hy Hs).
    destruct (endsWith x (lit "ie")) eqn:Eie.
    + apply endsWith_suffix in Eie as [t ->].
      rewrite <- app_assoc.
      change (lit "ie" ++ lit "s") with (lit "ies").
      rewrite getSingular_ies. split.
      * intros H. by apply app_lit_neq in H.
      * intros [H _]. discriminate.
    + rewrite (getSingular_s _ Hs Eie). split; [intros _|done].
      split; [done|]. intros H. congruence.
Qed.

Lemma getPlural_getSingular_getPlural_iff x :
  getPlural (getSingular (getPlural x)) = getPlural x
  <-> endsWith x (lit "ys") = false.
Proof.
  destruct (ending_cases x) as [[stem ->] | [[stem ->] | [Hy Hs]]].
  - rewrite getPlural_y, getSingular_ies, getPlural_y.
    split; [intros _; by ends|done].
  - rewrite getPlural_s.
    destruct (endsWith stem (lit "s")) eqn:Es.
    { apply endsWith_suffix in Es as [t ->]. rewrite <- app_assoc.
      change (lit "s" ++ lit "s") with (lit "ss").
      rewrite getSingular_ss.
      change (lit "ss") with (lit "s" ++ lit "s").
      rewrite app_assoc, getPlural_s.
      split; [intros _; by ends|done]. }
    destruct (endsWith stem (lit "ie")) eqn:Eie.
    { apply endsWith_suffix in Eie as [t ->].
      rewrite <- app_assoc.
      change (lit "ie" ++ lit "s") with (lit "ies").
      rewrite getSingular_ies, getPlural_y.
      split; [intros _; by ends|done]. }
    rewrite (getSingular_s _ Es Eie).
    destruct (endsWith stem (lit "y")) eqn:Ey.
    + apply endsWith_suffix in Ey as [t ->].
      rewrite getPlural_y, <- app_assoc. split.
      * intros H. by apply app_lit_neq in H.
      * intros H. by ends.
    + rewrite (getPlural_other _ Ey Es).
      split; [intros _; by ends|done].
  - rewrite (getPlural_other _ Hy Hs).
    assert (endsWith x (lit "ys") = false) as Hys.
    { apply endsWith_false. intros [k ->].
      change (lit "ys") with (lit "y" ++ lit "s") in Hs.
      by rewrite app_assoc, endsWith_app in Hs. }
    split; [by intros _|intros _].
    destruct (endsWith x (lit "ie")) eqn:Eie.
    + apply endsWith_suffix in Eie as [t ->].
      rewrite <- app_assoc.
      change (lit "ie" ++ lit "s") with (lit "ies").
      by rewrite getSingular_ies, getPlural_y.
    + rewrite (getSingular_s _ Hs Eie). by apply getPlural_other.
Qed.

(** C5 (amended): for every token [x], [getSingular (getPlural x) = x]
    holds exactly when [x] does not end in [ie] and ends in [s] only if
    it ends in [ss]; [getPlural (getSingular (getPlural x)) = getPlural x]
    holds exactly when [x] does not end in [ys]. *)
Theorem C5_plural_round_trips (x : jsstring) :
  (getSingular (getPlural x) = x
   <-> endsWith x (lit "ie") = false
       /\ (endsWith x (lit "s") = true -> endsWith x (lit "ss") = true))
  /\ (getPlural (getSingular (getPlural x)) = getPlural x
      <-> endsWith x (lit "ys") = false).
Proof.
  split.
  - apply getSingular_getPlural_iff.
  - apply getPlural_getSingular_getPlural_iff.
Qed.

Lemma C5_plural_round_trips_witness :
  getSingular (getPlural (lit "category")) = lit "category"
  /\ getPlural (getSingular (getPlural (lit "category")))
     = getPlural (lit "category").
Proof.
  destruct (C5_plural_round_trips (lit "category")) as [H1 H2].
  split.
  - apply H1. split; [reflexivity|]. intros H. discriminate H.
  - apply H2. reflexivity.
Defined.

(** ** Case conversion (C3) *)

Lemma splitOn_words sep s :
  Forall (Forall (fun c => sep c = false)) (splitOn sep s).
Proof.
  induction s as [|c s IH]; simpl.
  - by repeat constructor.
  - destruct (sep c) eqn:E.
    + by constructor.
    + destruct (splitOn sep s) as [|w ws].
      * by repeat constructor.
      * inversion IH; subst. constructor; [by constructor|done].
Qed.

Lemma splitOn_single sep s :
  Forall (fun c => sep c = false) s -> splitOn sep s = [s].
Proof.
  induction 1 as [|c s Hc _ IH]; simpl; [done|].
  by rewrite Hc, IH.
Qed.

Lemma capitalize_separatorFree w :
  separatorFree w -> separatorFree (capitalize w).
Proof.
  intros H. destruct H as [|c w Hc Hw]; [constructor|].
  unfold capitalize; simpl. constructor.
  - by rewrite isSeparator_upperChar.
  - unfold toLowerCase. apply Forall_fmap.
    eapply Forall_impl; [exact Hw|].
    intros d Hd. simpl. by rewrite isSeparator_lowerChar.
Qed.

Lemma toPascalCase_separatorFree s : separatorFree (toPascalCase s).
Proof.
  unfold toPascalCase.
  pose proof (splitOn_words isSeparator s) as H.
  induction H as [|w ws Hw _ IH]; simpl; [constructor|].
  apply Forall_app. split; [by apply capitalize_separatorFree|exact IH].
Qed.

Lemma toPascalCase_single s :
  separatorFree s -> toPascalCase s = capitalize s.
Proof.
  intros H. unfold toPascalCase. rewrite (splitOn_single _ _ H).
  simpl. apply app_nil_r.
Qed.

(** Lowering the first letter of a capitalized word lowers the word. *)
Lemma lowerFirst_capitalize w :
  toLowerCase (charAt0 (capitalize w)) ++ slice1 (capitalize w)
  = toLowerCase w.
Proof.
  destruct w as [|c w]; [reflexivity|].
  unfold capitalize; simpl. by rewrite lowerChar_upperChar.
Qed.

Lemma toCamelCase_toPascalCase x :
  toCamelCase (toPascalCase x) = toLowerCase (toPascalCase x).
Proof.
  unfold toCamelCase at 1.
  rewrite (toPascalCase_single _ (toPascalCase_separatorFree x)).
  apply lowerFirst_capitalize.
Qed.

Lemma toLowerCase_toCamelCase x :
  toLowerCase (toCamelCase x) = toLowerCase (toPascalCase x).
Proof.
  unfold toCamelCase. destruct (toPascalCase x) as [|c p]; [reflexivity|].
  simpl. by rewrite lowerChar_idem.
Qed.

Lemma toCamelCase_single x :
  separatorFree x -> toCamelCase x = toLowerCase x.
Proof.
  intros H. unfold toCamelCase. rewrite (toPascalCase_single _ H).
  apply lowerFirst_capitalize.
Qed.

(** C3, as stated, fails on a token of two words: the class form
    [UserService] has lost the word boundary. *)
Lemma C3_user_service_counterexample :
  toCamelCase (toPascalCase (lit "user-service")) = lit "userservice"
  /\ toCamelCase (lit "user-service") = lit "userService"
  /\ ~ (forall x, toCamelCase (toPascalCase x) = toCamelCase x).
Proof.
  split; [reflexivity|]. split; [reflexivity|].
  intros H. specialize (H (lit "user-service")). discriminate H.
Qed.

(** C3 (amended): for every token [x], [toCamelCase (toPascalCase x)] is
    [toCamelCase x] in lower case; the two are equal for every [x]
    without a separator ([-], [_], white space). *)
Theorem C3_case_round_trip (x : jsstring) :
  toCamelCase (toPascalCase x) = toLowerCase (toCamelCase x)
  /\ (separatorFree x -> toCamelCase (toPascalCase x) = toCamelCase x).
Proof.
  split.
  - by rewrite toCamelCase_toPascalCase, toLowerCase_toCamelCase.
  - intros H. rewrite toCamelCase_toPascalCase, (toCamelCase_single _ H).
    rewrite (toPascalCase_single _ H). destruct x as [|c x]; [reflexivity|].
    unfold capitalize, toLowerCase; simpl.
    by rewrite lowerChar_upperChar, map_map, (map_ext _ _ lowerChar_idem).
Qed.

Lemma C3_case_round_trip_witness :
  toCamelCase (toPascalCase (lit "invoice")) = toCamelCase (lit "invoice").
Proof.
  apply (C3_case_round_trip (lit "invoice")).
  repeat constructor.
Defined.

(** Scenarios A and B of the naming engine. *)
Example scenario_A :
  getSingular (lit "invoices") = lit "invoice"
  /\ toPascalCase (getSingular (lit "invoices")) = lit "Invoice"
  /\ toCamelCase (getSingular (lit "invoices")) = lit "invoice".
Proof. repeat split; reflexivity. Qed.

Example scenario_B : getPlural (lit "category") = lit "categories".
Proof. reflexivity. Qed.

(** ** Strategy resolution (C6) *)

Import DatabaseStrategyFactory.

Lemma strictEq_eq a b : strictEq a b = true <-> a = b.
Proof.
  revert b. induction a as [|c a IH]; intros [|d b]; simpl; try done.
  rewrite andb_true_iff, Ascii.eqb_eq, IH. split.
  - by intros [-> ->].
  - by intros [= -> ->].
Qed.

Lemma strictEq_neq a b : strictEq a b = false <-> a <> b.
Proof.
  rewrite <- strictEq_eq. destruct (strictEq a b); intuition congruence.
Qed.

(** C6, as stated, fails: the error names the rejected key, but it does
    not list the valid keys. *)
Lemma C6_valid_keys_counterexample :
  getStrategy (lit "unknown-backend")
  = ThrowError (lit "Unsupported database strategy: unknown-backend")
  /\ ~ (forall name,
          toLowerCase name <> lit "prisma" ->
          exists message,
            getStrategy name = ThrowError message
            /\ includes message name = true
            /\ Forall (fun key => includes message key = true) validKeys).
Proof.
  split; [reflexivity|]. intros H.
  destruct (H (lit "unknown-backend")) as (message & Hm & _ & Hkeys).
  { discriminate. }
  injection Hm as <-. inversion Hkeys as [|? ? Hk _]. discriminate Hk.
Qed.

(** C6 (amended): for every key whose lower-case form is not [prisma],
    [getStrategy] throws an error whose message is
    [Unsupported database strategy: ] followed by the key as it was
    given, and returns no strategy; the valid keys are not listed.  The
    lookup is case-insensitive: every key whose lower-case form is
    [prisma] resolves to the Prisma strategy. *)
Theorem C6_getStrategy (name : jsstring) :
  (toLowerCase name <> lit "prisma" ->
   getStrategy name
   = ThrowError (lit "Unsupported database strategy: " ++ name)
   /\ occurs name (lit "Unsupported database strategy: " ++ name)
   /\ forall strategy, getStrategy name <> Return strategy)
  /\ (toLowerCase name = lit "prisma" ->
      getStrategy name = Return PrismaStrategy).
Proof.
  unfold getStrategy. split.
  - intros H. apply strictEq_neq in H. rewrite H.
    split; [reflexivity|]. split; [|discriminate].
    apply occurs_app_r, occurs_refl.
  - intros H. apply strictEq_eq in H. by rewrite H.
Qed.

Lemma C6_getStrategy_witness :
  getStrategy (lit "unknown-backend")
  = ThrowError (lit "Unsupported database strategy: unknown-backend")
  /\ getStrategy (lit "Prisma") = Return PrismaStrategy
  /\ getStrategy (lit "PRISMA") = Return PrismaStrategy.
Proof.
  split; [|split].
  - apply (C6_getStrategy (lit "unknown-backend")). discriminate.
  - apply (C6_getStrategy (lit "Prisma")). reflexivity.
  - apply (C6_getStrategy (lit "PRISMA")). reflexivity.
Defined.

(** ** The updater of [updateAppModule] *)

Import Samples.

(** With the class name in the text, nothing is done. *)
Lemma patch_already_imported content importStatement moduleClassName :
  occurs moduleClassName content ->
  patch content importStatement moduleClassName
  = (content, [alreadyImported moduleClassName]).
Proof.
  intros H. apply includes_occurs in H. unfold patch. by rewrite H.
Qed.

(** C10: when the class name occurs anywhere in the text, the updater
    returns the text as it is and only logs that the module is already
    imported. *)
Theorem C10_noop_on_substring (content importStatement moduleClassName
    : jsstring) :
  occurs moduleClassName content ->
  patch content importStatement moduleClassName
  = (content, [alreadyImported moduleClassName]).
Proof. apply patch_already_imported. Qed.

(** The class name [FooModule] inside a comment, as part of a longer
    identifier: nothing is imported and nothing is registered. *)
Lemma C10_noop_on_substring_witness :
  updater (lit "foo") (lit "// TODO wire MyFooModuleFactory by hand")
  = (lit "// TODO wire MyFooModuleFactory by hand",
     [alreadyImported (lit "FooModule")]).
Proof.
  apply (C10_noop_on_substring
           (lit "// TODO wire MyFooModuleFactory by hand")
           (importStatementOf (lit "FooModule") (lit "foo"))
           (lit "FooModule")).
  exists (lit "// TODO wire My"), (lit "Factory by hand"). reflexivity.
Defined.

(** C1 at the sample: the registration list [imports: [],] is not
    replaced by [imports: [FooModule],]; the test for [imports: [] comes
    first and matches the empty literal as well. *)
Theorem C1_empty_literal_not_replaced :
  occurs (lit "imports: [],") appModuleEmptyImports
  /\ includes appModuleEmptyImports (lit "FooModule") = false
  /\ importStatementOf (moduleClassNameOf (lit "foo")) (lit "foo")
     = lit "import { FooModule } from './foo/foo.module';"
  /\ updater (lit "foo") appModuleEmptyImports
     = (appModuleEmptyImportsPatched, [])
  /\ includes appModuleEmptyImportsPatched (lit "imports: [FooModule],")
     = false.
Proof.
  split; [apply includes_occurs; reflexivity|].
  repeat split; reflexivity.
Qed.

(** ** The modules of the composite workflow (C9) *)

(** The guard of [ModuleCommand.execute] stops a second user module
    once [src/user] or [src/users] exists. *)
Lemma userModuleRefused_user (userExists usersExists : bool) :
  AllCommand.userModuleRefused (getPlural (lit "user")) userExists usersExists
  = (userExists || usersExists)%bool
  /\ AllCommand.userModuleRefused (getPlural (lit "users"))
       userExists usersExists
     = (userExists || usersExists)%bool.
Proof. by split. Qed.

(** With authentication on and a user module requested, the array the
    loop runs over is the request as it was: the filtered copy is
    lost. *)
Lemma selectModules_keeps_request (h : AllCommand.heap)
    (projectDetails : AllCommand.ProjectDetails) :
  AllCommand.auth projectDetails = true ->
  (AllCommand.arrayIncludes h (AllCommand.modules projectDetails) (lit "user")
   || AllCommand.arrayIncludes h (AllCommand.modules projectDetails)
        (lit "users"))%bool = true ->
  exists h',
    AllCommand.selectModules h projectDetails
    = (h', AllCommand.modules projectDetails, [AllCommand.skippingUser])
    /\ AllCommand.readArray h' (AllCommand.modules projectDetails)
       = AllCommand.readArray h (AllCommand.modules projectDetails).
Proof.
  intros Hauth Hincl. unfold AllCommand.selectModules.
  rewrite Hauth, Hincl. simpl. eexists. split; [reflexivity|].
  set (r := AllCommand.modules projectDetails) in *.
  unfold AllCommand.readArray, AllCommand.arrayUnshift.
  destruct (decide (r < length h)) as [Hr|Hr].
  - rewrite list_lookup_alter_ne by lia. by rewrite lookup_app_l.
  - exfalso. unfold AllCommand.arrayIncludes, AllCommand.readArray in Hincl.
    rewrite (proj2 (lookup_ge_None h r)) in Hincl by lia. discriminate Hincl.
Qed.

(** C9 at the sample: with authentication on and [users] requested, the
    filtered array with [user] in front is built and lost; the loop runs
    over the request as it was, [users] after [posts].  Without a user
    module in the request, [user] does come first. *)
Theorem C9_user_module_not_dropped :
  AllCommand.selectModules requestHeap request
  = ([[lit "posts"; lit "users"]; [lit "user"; lit "posts"]], 0,
     [AllCommand.skippingUser])
  /\ AllCommand.modulesExecuted requestHeap request
     = [lit "posts"; lit "users"]
  /\ AllCommand.modulesExecuted requestHeapWithoutUser request
     = [lit "users"; lit "posts"].
Proof. repeat split; reflexivity. Qed.

(** ** Text insertion *)

(** An occurrence of [p] cannot cross a character that [p] lacks. *)
Lemma occurs_across (p x y : jsstring) (c : ascii) :
  c ∉ p -> occurs p (x ++ c :: y) -> occurs p x \/ occurs p y.
Proof.
  intros Hc (a & b & H).
  apply app_eq_inv in H as [(k & -> & H) | (k & -> & H)].
  - apply app_eq_inv in H as [(k2 & -> & H) | (k2 & -> & _)].
    + destruct k2 as [|d k2].
      * left. exists a, []. by rewrite !app_nil_r.
      * injection H as -> _. exfalso. apply Hc.
        apply elem_of_app. right. apply elem_of_cons. by left.
    + left. exists a, k2. reflexivity.
  - destruct k as [|d k].
    + destruct p as [|e p].
      * left. exists x, []. by rewrite !app_nil_r.
      * injection H as -> _. exfalso. apply Hc. apply elem_of_cons. by left.
    + injection H as _ ->. right. by exists k, b.
Qed.

(** Inserting [x] right after a [d] (or in front) keeps every piece
    [body ++ [c]] whose [body] has no [d]. *)
Lemma occurs_insert (body p q x : jsstring) (c d : ascii) :
  d ∉ body ->
  p = [] \/ (exists p', p = p' ++ [d]) ->
  occurs (body ++ [c]) (p ++ q) ->
  occurs (body ++ [c]) (p ++ x ++ q).
Proof.
  intros Hd Hp (a & b & H).
  apply app_eq_inv in H as [(k & -> & H) | (k & -> & ->)].
  - apply app_eq_inv in H as [(k2 & Hs & ->) | (k2 & -> & _)].
    + destruct k2 as [|e k2 _] using rev_ind.
      { rewrite app_nil_r in Hs. subst k.
        apply occurs_app_l. exists a, []. by rewrite app_nil_r. }
      destruct k as [|f k _] using rev_ind.
      { simpl in Hs. rewrite app_nil_r. rewrite Hs.
        apply occurs_app_r, occurs_app_r.
        exists [], b. by rewrite <- !app_assoc. }
      exfalso. destruct Hp as [Hp | (p' & Hp)].
      { by destruct a, k. }
      rewrite !app_assoc in Hp. apply app_inj_tail in Hp as [_ ->].
      rewrite !app_assoc in Hs. apply app_inj_tail in Hs as [-> _].
      apply Hd. apply elem_of_app. left. apply elem_of_app. right.
      apply elem_of_cons. by left.
    + apply occurs_app_l. exists a, k2. by rewrite <- !app_assoc.
  - apply occurs_app_r, occurs_app_r.
    exists k, b. reflexivity.
Qed.


(** The first occurrence of a character splits a text in one way. *)
Lemma first_char_unique (x x' y y' : jsstring) (c : ascii) :
  c ∉ x -> c ∉ x' -> x ++ c :: y = x' ++ c :: y' -> x = x' /\ y = y'.
Proof.
  revert x'. induction x as [|d x IH]; intros [|d' x'] Hx Hx' H; simpl in H.
  - by injection H as ->.
  - injection H as -> _. exfalso. apply Hx'. apply elem_of_cons. by left.
  - injection H as -> _. exfalso. apply Hx. apply elem_of_cons. by left.
  - injection H as -> H.
    destruct (IH x') as [-> ->]; try done.
    + intros E. apply Hx. apply elem_of_cons. by right.
    + intros E. apply Hx'. apply elem_of_cons. by right.
Qed.

(** ** The two steps of the updater *)

Lemma clamp_le s i : clamp s i <= length s.
Proof. unfold clamp. lia. Qed.

Lemma clamp_nat s n : n <= length s -> clamp s (Z.of_nat n) = n.
Proof. unfold clamp. lia. Qed.

Lemma substring_0 s n :
  n <= length s -> substring s 0 (Z.of_nat n) = take n s.
Proof.
  intros H. unfold substring. rewrite (clamp_nat s n H).
  replace (clamp s 0) with 0 by (unfold clamp; lia).
  simpl. by rewrite Nat.sub_0_r.
Qed.

Lemma substringFrom_nat s n :
  n <= length s -> substringFrom s (Z.of_nat n) = drop n s.
Proof. intros H. unfold substringFrom. by rewrite (clamp_nat s n H). Qed.

(** [indexOf] finds nothing, or the text splits at the index it
    returns. *)
Lemma indexOf_cases s p position :
  indexOf s p position = (-1)%Z
  \/ exists a b, s = a ++ p ++ b /\ indexOf s p position = Z.of_nat (length a).
Proof.
  unfold indexOf. pose proof (clamp_le s position) as Hle.
  destruct (find p (drop (clamp s position) s)) as [k|] eqn:F; [right|by left].
  destruct (find_Some _ _ _ F) as (a & b & Hs & <-).
  exists (take (clamp s position) s ++ a), b. split.
  - by rewrite <- app_assoc, <- Hs, take_drop.
  - by rewrite length_app, length_take_le.
Qed.

(** The import statement goes in front of the text or right after
    one of its semicolons. *)
Lemma addImportStatement_shape content importStatement :
  exists a b,
    content = a ++ b
    /\ (a = [] \/ exists a', a = a' ++ [";"%char])
    /\ (addImportStatement content importStatement
        = a ++ ([LF] ++ importStatement) ++ b
        \/ (a = []
            /\ addImportStatement content importStatement
               = a ++ (importStatement ++ [LF]) ++ b)).
Proof.
  unfold addImportStatement.
  destruct (includes content (lit "import {")).
  - destruct (indexOf_cases content (lit ";")
                (lastIndexOf content (lit "import")))
      as [-> | (a & b & Hs & ->)].
    + exists [], content. split; [done|]. split; [by left|]. left.
      change (-1 + 1)%Z with (Z.of_nat 0).
      rewrite substring_0, substringFrom_nat by lia.
      by rewrite take_0, drop_0.
    + exists (a ++ lit ";"), b. split; [by rewrite <- app_assoc|].
      split; [right; by exists a|]. left.
      replace (Z.of_nat (length a) + 1)%Z
        with (Z.of_nat (length (a ++ lit ";")))
        by (rewrite length_app; simpl; lia).
      assert (content = (a ++ lit ";") ++ b) as Hs'
        by (by rewrite <- app_assoc).
      rewrite substring_0, substringFrom_nat
        by (rewrite Hs', !length_app; lia).
      rewrite Hs' at 1 2. rewrite take_app_length, drop_app_length.
      by rewrite <- !app_assoc.
  - exists [], content. split; [done|]. split; [by left|]. right.
    split; [done|]. by rewrite <- !app_assoc.
Qed.

Lemma replace_shape s pat template :
  occurs pat s ->
  exists u1 u2,
    s = u1 ++ pat ++ u2
    /\ replace s pat template
       = u1 ++ getSubstitution pat u1 u2 template ++ u2.
Proof.
  intros H. apply includes_occurs in H. unfold includes, replace in *.
  destruct (find pat s) as [n|] eqn:F; [|discriminate].
  destruct (find_Some _ _ _ F) as (a & b & -> & <-).
  exists a, b. split; [done|].
  rewrite take_app_length.
  replace (drop (length a + length pat) (a ++ pat ++ b)) with b;
    [reflexivity|].
  by rewrite app_assoc, <- length_app, drop_app_length.
Qed.

(** The registration list, when found, keeps its opening bracket and
    gets text inserted right after it. *)
Lemma addToImportsArray_found updatedContent moduleClassName :
  occurs (lit "imports: [") updatedContent ->
  exists u1 u2 inserted,
    updatedContent = (u1 ++ lit "imports: [") ++ u2
    /\ addToImportsArray updatedContent moduleClassName
       = ((u1 ++ lit "imports: [") ++ inserted ++ u2, []).
Proof.
  intros H. unfold addToImportsArray.
  rewrite (proj2 (includes_occurs _ _) H).
  destruct (replace_shape _ _
              (lit "imports: [" ++ [LF] ++ lit "    " ++ moduleClassName
                 ++ lit ",") H) as (u1 & u2 & Hs & ->).
  exists u1, u2.
  exists (getSubstitution (lit "imports: [") u1 u2
            ([LF] ++ lit "    " ++ moduleClassName ++ lit ",")).
  split; [by rewrite <- app_assoc|].
  by rewrite <- !app_assoc.
Qed.

(** The test for the empty literal is never reached with a text that
    contains it. *)
Lemma empty_literal_has_bracket s :
  occurs (lit "imports: [],") s -> occurs (lit "imports: [") s.
Proof.
  apply occurs_trans. exists [], (lit "],"). reflexivity.
Qed.

Lemma addToImportsArray_not_found updatedContent moduleClassName :
  ~ occurs (lit "imports: [") updatedContent ->
  addToImportsArray updatedContent moduleClassName
  = (updatedContent, [anchorNotFound]).
Proof.
  intros H. unfold addToImportsArray.
  rewrite (proj2 (includes_false _ _) H).
  assert (~ occurs (lit "imports: [],") updatedContent) as H'
    by (intros H'; by apply H, empty_literal_has_bracket).
  by rewrite (proj2 (includes_false _ _) H').
Qed.

(** A character that a literal lacks. *)
Ltac not_in_literal :=
  let H := fresh in
  intros H; unfold lit in H; simpl in H;
  repeat (apply elem_of_cons in H as [H|H]; [discriminate H|]);
  by apply elem_of_nil in H.

Lemma importStatementOf_semicolon moduleClassName moduleName :
  exists body,
    importStatementOf moduleClassName moduleName = body ++ [";"%char].
Proof.
  exists (lit "import { " ++ moduleClassName ++ lit " } from './"
            ++ moduleName ++ lit "/" ++ moduleName ++ lit ".module'").
  unfold importStatementOf. by rewrite <- !app_assoc.
Qed.

Lemma importStatementOf_braced moduleClassName moduleName :
  exists rest,
    importStatementOf moduleClassName moduleName
    = (lit "import " ++ lit "{ ") ++ moduleClassName ++ lit " }" ++ rest.
Proof.
  exists (lit " from './" ++ moduleName ++ lit "/" ++ moduleName
            ++ lit ".module';").
  unfold importStatementOf. rewrite <- !app_assoc. reflexivity.
Qed.

(** The anchor of the registration list is found in the text with the
    import statement only if it is found in the text or in the
    statement. *)
Lemma anchor_after_import content moduleClassName moduleName :
  occurs (lit "imports: [")
    (addImportStatement content
       (importStatementOf moduleClassName moduleName)) ->
  occurs (lit "imports: [") content
  \/ occurs (lit "imports: [")
       (importStatementOf moduleClassName moduleName).
Proof.
  destruct (importStatementOf_semicolon moduleClassName moduleName)
    as (body & HI).
  destruct (addImportStatement_shape content
              (importStatementOf moduleClassName moduleName))
    as (a & b & -> & _ & [-> | [-> ->]]); rewrite HI.
  - rewrite <- !app_assoc. simpl. intros H.
    apply occurs_across in H as [H|H]; [| |not_in_literal].
    { left. by apply occurs_app_l. }
    apply occurs_across in H as [H|H]; [| |not_in_literal].
    + right. by apply occurs_app_l.
    + left. by apply occurs_app_r.
  - rewrite <- !app_assoc. simpl. intros H.
    apply occurs_across in H as [H|H]; [| |not_in_literal].
    { right. by apply occurs_app_l. }
    apply (occurs_across _ [] b LF) in H as [H|H]; [| |not_in_literal].
    + destruct H as ([|] & ? & H); discriminate H.
    + by left.
Qed.

(** A text with the empty literal [imports: [],] takes the first branch
    as well. *)
Lemma addToImportsArray_empty_literal updatedContent moduleClassName :
  occurs (lit "imports: [],") updatedContent ->
  exists u1 u2 inserted,
    updatedContent = (u1 ++ lit "imports: [") ++ u2
    /\ addToImportsArray updatedContent moduleClassName
       = ((u1 ++ lit "imports: [") ++ inserted ++ u2, []).
Proof.
  intros H. by apply addToImportsArray_found, empty_literal_has_bracket.
Qed.

Lemma updateAppModule_updater content moduleName :
  updateAppModule (Some content) moduleName
  = (Some (fst (updater moduleName content)),
     snd (updater moduleName content)).
Proof. unfold updateAppModule. by destruct (updater moduleName content). Qed.

(** C8, as stated, fails: the anchor is looked for in the text after
    the import statement went in.  For the module name [imports: [s]
    the import statement itself has the anchor, so with neither the
    class name nor the anchor in the aggregator text the registration
    is still written, into the import statement, and no warning is
    logged. *)
Lemma C8_anchor_in_import_counterexample :
  ~ occurs (moduleClassNameOf (lit "imports: [s"))
      (lit "export class AppModule {}")
  /\ ~ occurs (lit "imports: [") (lit "export class AppModule {}")
  /\ updater (lit "imports: [s") (lit "export class AppModule {}")
     = (unlines [
          lit "import { Imports:[Module } from './imports: [";
          lit "    Imports:[Module,s/imports: [s.module';";
          lit "export class AppModule {}"
        ], [])
  /\ ~ occurs
        (importStatementOf (moduleClassNameOf (lit "imports: [s"))
           (lit "imports: [s"))
        (fst (updater (lit "imports: [s") (lit "export class AppModule {}")))
  /\ ~ (forall moduleName content,
          ~ occurs (moduleClassNameOf moduleName) content ->
          ~ occurs (lit "imports: [") content ->
          occurs (importStatementOf (moduleClassNameOf moduleName) moduleName)
            (fst (updater moduleName content))
          /\ snd (updater moduleName content) = [anchorNotFound]).
Proof.
  assert (~ occurs (moduleClassNameOf (lit "imports: [s"))
            (lit "export class AppModule {}")) as Hclass
    by (by apply includes_false).
  assert (~ occurs (lit "imports: [") (lit "export class AppModule {}"))
    as Hanchor by (by apply includes_false).
  split; [exact Hclass|]. split; [exact Hanchor|].
  split; [reflexivity|]. split; [by apply includes_false|].
  intros H.
  destruct (H (lit "imports: [s") (lit "export class AppModule {}")
              Hclass Hanchor) as [_ Hlog].
  discriminate Hlog.
Qed.

(** C8 (amended): past the test for the class name, that is when the
    class name does not occur in the text yet, and with [imports: []
    neither in the text nor in the import statement, the updater returns
    the text with the import statement inserted at one place (after a
    line feed there, or in front with a line feed after it), everything
    else as it was, and logs the one warning that the imports array was
    not found. *)
Theorem C8_anchor_not_found (moduleName content : jsstring) :
  let moduleClassName := moduleClassNameOf moduleName in
  let importStatement := importStatementOf moduleClassName moduleName in
  ~ occurs moduleClassName content ->
  ~ occurs (lit "imports: [") content ->
  ~ occurs (lit "imports: [") importStatement ->
  exists a b,
    content = a ++ b
    /\ (updater moduleName content
        = (a ++ ([LF] ++ importStatement) ++ b, [anchorNotFound])
        \/ (a = []
            /\ updater moduleName content
               = (importStatement ++ [LF] ++ content, [anchorNotFound]))).
Proof.
  intros moduleClassName importStatement HR HT HI.
  unfold updater, patch. fold moduleClassName. fold importStatement.
  rewrite (proj2 (includes_false _ _) HR).
  assert (~ occurs (lit "imports: [")
            (addImportStatement content importStatement)) as HU.
  { intros H. apply anchor_after_import in H as [H|H]; tauto. }
  rewrite (addToImportsArray_not_found _ _ HU).
  destruct (addImportStatement_shape content importStatement)
    as (a & b & Hab & _ & [-> | [-> ->]]).
  - exists a, b. split; [done|]. by left.
  - exists [], b. split; [done|]. right. split; [done|].
    simpl in Hab. subst b. by rewrite <- !app_assoc.
Qed.

Lemma C8_anchor_not_found_witness :
  exists a b,
    lit "export class AppModule {}" = a ++ b
    /\ (updater (lit "foo") (lit "export class AppModule {}")
        = (a ++ ([LF] ++ lit "import { FooModule } from './foo/foo.module';")
             ++ b,
           [anchorNotFound])
        \/ (a = []
            /\ updater (lit "foo") (lit "export class AppModule {}")
               = (lit "import { FooModule } from './foo/foo.module';"
                    ++ [LF] ++ lit "export class AppModule {}",
                  [anchorNotFound]))).
Proof.
  apply (C8_anchor_not_found (lit "foo") (lit "export class AppModule {}")).
  - by apply includes_false.
  - by apply includes_false.
  - by apply includes_false.
Defined.

(** ** What the updater keeps (C7) *)

Lemma addImportStatement_keeps content importStatement :
  content `sublist_of` addImportStatement content importStatement
  /\ forall body c,
       ";"%char ∉ body ->
       occurs (body ++ [c]) content ->
       occurs (body ++ [c]) (addImportStatement content importStatement).
Proof.
  destruct (addImportStatement_shape content importStatement)
    as (a & b & -> & Ha & [-> | [_ ->]]).
  - split.
    + apply sublist_app; [done|]. by apply sublist_inserts_l.
    + intros body c Hbody. by apply occurs_insert with (d := ";"%char).
  - split.
    + apply sublist_app; [done|]. by apply sublist_inserts_l.
    + intros body c Hbody. by apply occurs_insert with (d := ";"%char).
Qed.

Lemma addToImportsArray_keeps updatedContent moduleClassName :
  updatedContent
    `sublist_of` fst (addToImportsArray updatedContent moduleClassName)
  /\ forall body c,
       "["%char ∉ body ->
       occurs (body ++ [c]) updatedContent ->
       occurs (body ++ [c])
         (fst (addToImportsArray updatedContent moduleClassName)).
Proof.
  destruct (includes updatedContent (lit "imports: [")) eqn:E.
  - apply includes_occurs in E.
    destruct (addToImportsArray_found _ moduleClassName E)
      as (u1 & u2 & inserted & -> & ->). simpl. split.
    + apply sublist_app; [done|]. by apply sublist_inserts_l.
    + intros body c Hbody. apply occurs_insert with (d := "["%char).
      * done.
      * right. exists (u1 ++ lit "imports: "). by rewrite <- !app_assoc.
  - apply includes_false in E.
    rewrite (addToImportsArray_not_found _ _ E). by split.
Qed.



(** The last [import] of an aggregator text is the one of [imports: [],
    and the import statement goes after the first [;] that follows it:
    here inside a registration entry, not after the last import
    statement. *)
Lemma import_statement_inside_entry :
  lastIndexOf appModuleWithFactory (lit "import")
  = indexOf appModuleWithFactory (lit "imports: [") 0
  /\ updater (lit "foo") appModuleWithFactory
     = (unlines [
          lit "import { Module } from '@nestjs/common';";
          lit "import { ConfigModule } from '@nestjs/config';";
          lit "";
          lit "@Module({";
          lit "  imports: [";
          lit "    FooModule,";
          lit "    ConfigModule.forRoot({ load: [() => { return {};";
          lit "import { FooModule } from './foo/foo.module'; }] }),";
          lit "  ],";
          lit "})";
          lit "export class AppModule {}";
          lit ""
        ], []).
Proof. split; reflexivity. Qed.

(** The cases of a text [k] that a literal starts with. *)
Ltac prefix_of_literal H k :=
  destruct k as [|? k]; simpl in H;
  [ | first [ discriminate H
            | injection H as <- H; prefix_of_literal H k ] ].



(** ** Idempotence (C2) *)

(** A word without a space between [{ ] and [ }] is out of reach of the
    first [imports: [] of the text: it lies before it or after it. *)
Lemma braced_survives (L R M u1 u2 : jsstring) :
  " "%char ∉ R ->
  (L ++ lit "{ ") ++ R ++ lit " }" ++ M = u1 ++ lit "imports: [" ++ u2 ->
  occurs R u1 \/ occurs R u2.
Proof.
  intros HR H.
  assert (" "%char ∉ lit "imports:") as Himports by not_in_literal.
  apply app_eq_inv in H as [(k & HL & H) | (k & -> & H)].
  - apply app_eq_inv in H as [(k2 & Hk & H) | (k2 & -> & ->)].
    + unfold lit in Hk; simpl in Hk. prefix_of_literal Hk k;
        try (exfalso; apply (f_equal (@rev ascii)) in HL;
             rewrite !rev_app_distr in HL; simpl in HL; discriminate HL).
      subst k2. exfalso.
      change (R ++ " "%char :: ("}"%char :: M)
              = lit "imports:" ++ " "%char :: ("["%char :: u2)) in H.
      apply first_char_unique in H as [_ H]; [discriminate H|done|done].
    + right. exists k2, (lit " }" ++ M). reflexivity.
  - apply app_eq_inv in H as [(k2 & -> & H) | (k2 & -> & _)].
    + exfalso.
      change (lit "imports:" ++ " "%char :: ("["%char :: u2)
              = k2 ++ " "%char :: ("}"%char :: M)) in H.
      apply first_char_unique in H as [_ H]; [discriminate H|done|].
      intros E. apply HR. apply elem_of_app. by right.
    + left. exists (L ++ lit "{ "), k2. by rewrite <- !app_assoc.
Qed.

Lemma moduleClassNameOf_no_space moduleName :
  " "%char ∉ moduleClassNameOf moduleName.
Proof.
  unfold moduleClassNameOf. intros H.
  apply elem_of_app in H as [H|H].
  - pose proof (toPascalCase_separatorFree (getSingular moduleName)) as F.
    rewrite Forall_forall in F. specialize (F _ H). discriminate F.
  - revert H. not_in_literal.
Qed.

(** The class name is in whatever the updater returns. *)
Lemma updater_has_class_name moduleName content :
  occurs (moduleClassNameOf moduleName) (fst (updater moduleName content)).
Proof.
  unfold updater, patch.
  destruct (includes content (moduleClassNameOf moduleName)) eqn:E.
  { by apply includes_occurs. }
  set (R := moduleClassNameOf moduleName).
  set (I := importStatementOf R moduleName).
  destruct (importStatementOf_braced R moduleName) as (rest & HI).
  fold I in HI.
  assert (exists X Y, addImportStatement content I = X ++ I ++ Y)
    as (X & Y & HU).
  { destruct (addImportStatement_shape content I)
      as (a & b & _ & _ & [-> | [_ ->]]).
    - exists (a ++ [LF]), b. by rewrite <- !app_assoc.
    - exists a, ([LF] ++ b). by rewrite <- !app_assoc. }
  assert (addImportStatement content I
          = ((X ++ lit "import ") ++ lit "{ ") ++ R ++ lit " }"
              ++ (rest ++ Y)) as HU'.
  { rewrite HU, HI. by rewrite <- !app_assoc. }
  destruct (includes (addImportStatement content I) (lit "imports: ["))
    eqn:Eanchor.
  - apply includes_occurs in Eanchor.
    destruct (addToImportsArray_found _ R Eanchor)
      as (u1 & u2 & inserted & Hsplit & ->). simpl.
    rewrite HU', <- (app_assoc u1) in Hsplit.
    apply braced_survives in Hsplit as [H|H];
      [| |apply moduleClassNameOf_no_space].
    + by apply occurs_app_l, occurs_app_l.
    + by apply occurs_app_r, occurs_app_r.
  - apply includes_false in Eanchor.
    rewrite (addToImportsArray_not_found _ _ Eanchor). simpl.
    rewrite HU'. apply occurs_app_r, occurs_app_l, occurs_refl.
Qed.

(** C2: the updater of [updateAppModule] is idempotent on the text,
    whatever the module name; with the class name already in the text it
    returns the text as it is, with no further import statement and no
    further entry of the registration list. *)
Theorem C2_updater_idempotent (moduleName content : jsstring) :
  fst (updater moduleName (fst (updater moduleName content)))
  = fst (updater moduleName content)
  /\ (occurs (moduleClassNameOf moduleName) content ->
      fst (updater moduleName content) = content).
Proof.
  split.
  - unfold updater at 1.
    by rewrite (patch_already_imported _ _ _
                  (updater_has_class_name moduleName content)).
  - intros H. unfold updater. by rewrite (patch_already_imported _ _ _ H).
Qed.

Lemma C2_updater_idempotent_witness :
  fst (updater (lit "foo") appModuleEmptyImportsPatched)
  = appModuleEmptyImportsPatched.
Proof.
  apply (C2_updater_idempotent (lit "foo") appModuleEmptyImportsPatched).
  apply includes_occurs. reflexivity.
Defined.

(** * Further properties *)

(** ** Plural and singular forms *)

Lemma getPlural_ends_s x : exists stem, getPlural x = stem ++ lit "s".
Proof.
  destruct (ending_cases x) as [[stem ->] | [[stem ->] | [Hy Hs]]].
  - exists (stem ++ lit "ie"). by rewrite getPlural_y, <- app_assoc.
  - exists stem. apply getPlural_s.
  - exists x. by apply getPlural_other.
Qed.

(** X1: [getPlural] is idempotent and its result always ends in [s]:
    the plural that [AllCommand.execute] hands over is left as it is by
    the [getPlural] of [ModuleCommand.execute]. *)
Theorem getPlural_idempotent (x : jsstring) :
  getPlural (getPlural x) = getPlural x
  /\ endsWith (getPlural x) (lit "s") = true.
Proof.
  destruct (getPlural_ends_s x) as [stem ->]. split.
  - apply getPlural_s.
  - apply endsWith_app.
Qed.

(** X2: [getSingular] is idempotent, and its result ends in [s] only
    when it ends in [ss]. *)
Theorem getSingular_idempotent (x : jsstring) :
  getSingular (getSingular x) = getSingular x
  /\ (endsWith (getSingular x) (lit "s") = true ->
      endsWith (getSingular x) (lit "ss") = true).
Proof.
  destruct (endsWith x (lit "s")) eqn:Es.
  - apply endsWith_suffix in Es as [stem ->].
    destruct (endsWith stem (lit "s")) eqn:Ess.
    { apply endsWith_suffix in Ess as [t ->]. rewrite <- app_assoc.
      change (lit "s" ++ lit "s") with (lit "ss").
      rewrite !getSingular_ss. split; [done|]. intros _. apply endsWith_app. }
    destruct (endsWith stem (lit "ie")) eqn:Eie.
    { apply endsWith_suffix in Eie as [t ->]. rewrite <- app_assoc.
      change (lit "ie" ++ lit "s") with (lit "ies").
      rewrite getSingular_ies.
      assert (endsWith (t ++ lit "y") (lit "s") = false) as Hy by (by ends).
      rewrite (getSingular_other _ Hy). split; [done|]. congruence. }
    rewrite (getSingular_s _ Ess Eie), (getSingular_other _ Ess).
    split; [done|]. congruence.
  - rewrite !(getSingular_other _ Es). split; [done|]. congruence.
Qed.

Lemma getSingular_idempotent_witness :
  endsWith (getSingular (lit "class")) (lit "ss") = true.
Proof.
  apply (getSingular_idempotent (lit "class")). reflexivity.
Defined.

(** X16: the name that the guard of [ModuleCommand.execute] looks at is
    a plural, so its comparison with [user] never holds: the guard
    refuses exactly the names whose plural is [users] in lower case,
    once [src/user] or [src/users] exists. *)
Theorem userModuleRefused_plural (x : jsstring) (userExists usersExists : bool) :
  strictEq (toLowerCase (getPlural x)) (lit "user") = false
  /\ AllCommand.userModuleRefused (getPlural x) userExists usersExists
     = (strictEq (toLowerCase (getPlural x)) (lit "users")
        && (userExists || usersExists))%bool.
Proof.
  assert (strictEq (toLowerCase (getPlural x)) (lit "user") = false) as H.
  { apply strictEq_neq. destruct (getPlural_ends_s x) as [stem ->].
    rewrite toLowerCase_app. intros E.
    apply (f_equal (@rev ascii)) in E. rewrite rev_app_distr in E.
    discriminate E. }
  split; [exact H|].
  unfold AllCommand.userModuleRefused. rewrite H. by rewrite orb_false_r.
Qed.

(** ** Kebab case and snake case *)

Ltac char_fact c := each_char c; first [reflexivity | discriminate | done].

Lemma isUpper_lowerChar c : isUpper (lowerChar c) = false.
Proof. char_fact c. Qed.

Lemma isSpaceOrUnderscore_lowerChar c :
  isSpaceOrUnderscore (lowerChar c) = isSpaceOrUnderscore c.
Proof. char_fact c. Qed.

Lemma isSpaceOrHyphen_lowerChar c :
  isSpaceOrHyphen (lowerChar c) = isSpaceOrHyphen c.
Proof. char_fact c. Qed.

Lemma lowerChar_not_upper c : isUpper c = false -> lowerChar c = c.
Proof. unfold lowerChar. by intros ->. Qed.

Lemma replaceRuns_free cls sep inRun s :
  cls sep = false ->
  Forall (fun c => cls c = false) (replaceRuns cls sep inRun s).
Proof.
  intros Hsep. revert inRun. induction s as [|c s IH]; intros inRun; simpl.
  - constructor.
  - destruct (cls c) eqn:E.
    + destruct inRun; [apply IH|]. constructor; [done|apply IH].
    + constructor; [done|apply IH].
Qed.

Lemma replaceRuns_id cls sep s :
  Forall (fun c => cls c = false) s -> replaceRuns cls sep false s = s.
Proof.
  induction 1 as [|c s Hc _ IH]; simpl; [done|]. by rewrite Hc, IH.
Qed.

Lemma separateLowerUpper_id sep s :
  Forall (fun c => isUpper c = false) s -> separateLowerUpper sep s = s.
Proof.
  induction 1 as [|c s Hc Hs IH]; [done|].
  destruct s as [|d s]; [done|].
  cbn [separateLowerUpper] in *. inversion Hs as [|? ? Hd _]; subst.
  rewrite Hd, andb_false_r. by rewrite IH.
Qed.

Lemma toLowerCase_id s :
  Forall (fun c => isUpper c = false) s -> toLowerCase s = s.
Proof.
  induction 1 as [|c s Hc _ IH]; simpl; [done|].
  by rewrite (lowerChar_not_upper _ Hc), IH.
Qed.

(** X3: the kebab form has no upper-case letter, no white space and no
    underscore, and [toKebabCase] is idempotent. *)
Theorem toKebabCase_normal (str : jsstring) :
  Forall (fun c => isUpper c = false /\ isSpaceOrUnderscore c = false)
    (toKebabCase str)
  /\ toKebabCase (toKebabCase str) = toKebabCase str.
Proof.
  assert (Forall (fun c => isUpper c = false /\ isSpaceOrUnderscore c = false)
            (toKebabCase str)) as H.
  { unfold toKebabCase, toLowerCase. apply Forall_fmap.
    eapply Forall_impl; [by apply replaceRuns_free|].
    intros c Hc. simpl. by rewrite isUpper_lowerChar,
      isSpaceOrUnderscore_lowerChar. }
  split; [exact H|].
  assert (Forall (fun c => isUpper c = false) (toKebabCase str)) as Hup
    by (eapply Forall_impl; [exact H|by intros c [? _]]).
  assert (Forall (fun c => isSpaceOrUnderscore c = false) (toKebabCase str))
    as Hcls by (eapply Forall_impl; [exact H|by intros c [_ ?]]).
  unfold toKebabCase at 1.
  by rewrite (separateLowerUpper_id _ _ Hup), (replaceRuns_id _ _ _ Hcls),
    (toLowerCase_id _ Hup).
Qed.

(** X4: the snake form has no upper-case letter, no white space and no
    hyphen, and [toSnakeCase] is idempotent. *)
Theorem toSnakeCase_normal (str : jsstring) :
  Forall (fun c => isUpper c = false /\ isSpaceOrHyphen c = false)
    (toSnakeCase str)
  /\ toSnakeCase (toSnakeCase str) = toSnakeCase str.
Proof.
  assert (Forall (fun c => isUpper c = false /\ isSpaceOrHyphen c = false)
            (toSnakeCase str)) as H.
  { unfold toSnakeCase, toLowerCase. apply Forall_fmap.
    eapply Forall_impl; [by apply replaceRuns_free|].
    intros c Hc. simpl. by rewrite isUpper_lowerChar,
      isSpaceOrHyphen_lowerChar. }
  split; [exact H|].
  assert (Forall (fun c => isUpper c = false) (toSnakeCase str)) as Hup
    by (eapply Forall_impl; [exact H|by intros c [? _]]).
  assert (Forall (fun c => isSpaceOrHyphen c = false) (toSnakeCase str))
    as Hcls by (eapply Forall_impl; [exact H|by intros c [_ ?]]).
  unfold toSnakeCase at 1.
  by rewrite (separateLowerUpper_id _ _ Hup), (replaceRuns_id _ _ _ Hcls),
    (toLowerCase_id _ Hup).
Qed.

(** ** From the class form back to the kebab and snake forms *)

Lemma isLower_facts c :
  isLower c = true ->
  isUpper c = false /\ isSeparator c = false
  /\ isSpaceOrUnderscore c = false /\ isSpaceOrHyphen c = false
  /\ lowerChar c = c
  /\ isUpper (upperChar c) = true /\ isLower (upperChar c) = false
  /\ isSpaceOrUnderscore (upperChar c) = false
  /\ isSpaceOrHyphen (upperChar c) = false.
Proof. each_char c; first [discriminate | by repeat split]. Qed.

Lemma splitOn_app_sep sep w sc rest :
  Forall (fun c => sep c = false) w -> sep sc = true ->
  splitOn sep (w ++ sc :: rest) = w :: splitOn sep rest.
Proof.
  intros Hw Hsc. induction Hw as [|c w Hc _ IH]; simpl.
  - by rewrite Hsc.
  - by rewrite Hc, IH.
Qed.

Lemma toPascalCase_join sc words :
  isSeparator sc = true ->
  Forall (fun w => separatorFree w) words ->
  toPascalCase (join [sc] words) = concat (map capitalize words).
Proof.
  intros Hsc Hwords. unfold toPascalCase.
  induction Hwords as [|w ws Hw Hws IH]; [reflexivity|].
  destruct ws as [|w2 ws].
  - simpl. by rewrite (splitOn_single _ _ Hw).
  - change (join [sc] (w :: w2 :: ws)) with (w ++ sc :: join [sc] (w2 :: ws)).
    rewrite (splitOn_app_sep _ _ _ _ Hw Hsc).
    change (map capitalize (w :: w2 :: ws))
      with (capitalize w :: map capitalize (w2 :: ws)).
    cbn [map concat]. cbn [map concat] in IH. by rewrite IH.
Qed.

Lemma capitalize_lowerWord w :
  lowerWord w ->
  exists c z w',
    w = c :: w' ++ [z] /\ capitalize w = upperChar c :: w' ++ [z]
    /\ isLower c = true /\ isLower z = true
    /\ Forall (fun c => isLower c = true) w'.
Proof.
  intros [Hlen Hw]. destruct w as [|c w]; [simpl in Hlen; lia|].
  destruct w as [|z w _] using rev_ind; [simpl in Hlen; lia|].
  inversion Hw as [|? ? Hc Hrest]; subst.
  apply Forall_app in Hrest as [Hw' Hz]. inversion Hz; subst.
  exists c, z, w. repeat split; try done.
  unfold capitalize. simpl. f_equal. apply toLowerCase_id.
  apply Forall_app. split.
  - eapply Forall_impl; [exact Hw'|]. intros d Hd. by apply isLower_facts.
  - constructor; [by apply isLower_facts|constructor].
Qed.

Lemma separateLowerUpper_upper sep u t :
  isLower u = false ->
  separateLowerUpper sep (u :: t) = u :: separateLowerUpper sep t.
Proof. intros Hu. destruct t; [done|]. cbn [separateLowerUpper]. by rewrite Hu. Qed.

Lemma separateLowerUpper_boundary sep l z u t :
  Forall (fun c => isLower c = true) l -> isLower z = true ->
  isUpper u = true ->
  separateLowerUpper sep (l ++ z :: u :: t)
  = l ++ z :: sep :: u :: separateLowerUpper sep t.
Proof.
  intros Hl Hz Hu. induction Hl as [|c l Hc Hl IH].
  - cbn [app separateLowerUpper]. by rewrite Hz, Hu.
  - assert (forall y ys, isLower y = true ->
              separateLowerUpper sep (c :: y :: ys)
              = c :: separateLowerUpper sep (y :: ys)) as Hstep.
    { intros y ys Hy. cbn [separateLowerUpper].
      destruct (isLower_facts y Hy) as (-> & _). by rewrite andb_false_r. }
    destruct l as [|y l].
    + cbn [app] in *. by rewrite Hstep, IH.
    + inversion Hl; subst. cbn [app] in *. by rewrite Hstep, IH.
Qed.

Lemma separateLowerUpper_words sep words :
  Forall lowerWord words ->
  separateLowerUpper sep (concat (map capitalize words))
  = join [sep] (map capitalize words).
Proof.
  induction 1 as [|w ws Hw Hws IH]; [reflexivity|].
  destruct (capitalize_lowerWord w Hw) as (c & z & w' & -> & Hcap & Hc & Hz & Hw').
  destruct (isLower_facts c Hc) as (_ & _ & _ & _ & _ & HU & HL & _).
  destruct ws as [|w2 ws].
  - cbn [map concat join]. rewrite app_nil_r, Hcap.
    rewrite (separateLowerUpper_upper _ _ _ HL). f_equal.
    apply separateLowerUpper_id. apply Forall_app. split.
    + eapply Forall_impl; [exact Hw'|]. intros d Hd. by apply isLower_facts.
    + constructor; [by apply isLower_facts|constructor].
  - inversion Hws as [|? ? Hw2 _]; subst.
    destruct (capitalize_lowerWord w2 Hw2)
      as (c2 & z2 & w2' & -> & Hcap2 & Hc2 & _).
    destruct (isLower_facts c2 Hc2) as (_ & _ & _ & _ & _ & HU2 & HL2 & _).
    change (map capitalize ((c :: w' ++ [z]) :: (c2 :: w2' ++ [z2]) :: ws))
      with (capitalize (c :: w' ++ [z])
              :: map capitalize ((c2 :: w2' ++ [z2]) :: ws)) in *.
    change (join [sep] (capitalize (c :: w' ++ [z])
                          :: map capitalize ((c2 :: w2' ++ [z2]) :: ws)))
      with (capitalize (c :: w' ++ [z]) ++ sep
              :: join [sep] (map capitalize ((c2 :: w2' ++ [z2]) :: ws))).
    rewrite <- IH. cbn [map concat]. rewrite Hcap, Hcap2.
    rewrite <- ?app_assoc. cbn [app]. rewrite <- ?app_assoc. cbn [app].
    rewrite (separateLowerUpper_upper _ _ _ HL).
    rewrite (separateLowerUpper_boundary _ _ _ _ _ Hw' Hz HU2).
    by rewrite (separateLowerUpper_upper _ _ _ HL2).
Qed.

Lemma Forall_join (P : ascii -> Prop) sc words :
  P sc -> Forall (Forall P) words -> Forall P (join [sc] words).
Proof.
  intros Hsc. induction 1 as [|w ws Hw Hws IH]; [constructor|].
  destruct ws as [|w2 ws]; [done|].
  change (join [sc] (w :: w2 :: ws)) with (w ++ sc :: join [sc] (w2 :: ws)).
  apply Forall_app. split; [done|]. by constructor.
Qed.

Lemma toLowerCase_capitalize w : toLowerCase (capitalize w) = toLowerCase w.
Proof.
  destruct w as [|c w]; [reflexivity|]. unfold capitalize. simpl.
  rewrite lowerChar_upperChar. f_equal. apply toLowerCase_idem.
Qed.

Lemma toLowerCase_join_capitalize sc words :
  lowerChar sc = sc ->
  Forall lowerWord words ->
  toLowerCase (join [sc] (map capitalize words)) = join [sc] words.
Proof.
  intros Hsc. induction 1 as [|w ws Hw Hws IH]; [reflexivity|].
  assert (toLowerCase (capitalize w) = w) as Hlow.
  { rewrite toLowerCase_capitalize. apply toLowerCase_id.
    destruct Hw as [_ Hw]. eapply Forall_impl; [exact Hw|].
    intros d Hd. by apply isLower_facts. }
  destruct ws as [|w2 ws]; [exact Hlow|].
  change (join [sc] (map capitalize (w :: w2 :: ws)))
    with (capitalize w ++ sc :: join [sc] (map capitalize (w2 :: ws))).
  change (join [sc] (w :: w2 :: ws)) with (w ++ sc :: join [sc] (w2 :: ws)).
  rewrite toLowerCase_app.
  change (toLowerCase (sc :: join [sc] (map capitalize (w2 :: ws))))
    with (lowerChar sc
            :: toLowerCase (join [sc] (map capitalize (w2 :: ws)))).
  by rewrite Hlow, Hsc, IH.
Qed.

Lemma capitalize_words_free (cls : ascii -> bool) words :
  (forall c, isLower c = true -> cls c = false /\ cls (upperChar c) = false) ->
  Forall lowerWord words ->
  Forall (Forall (fun c => cls c = false)) (map capitalize words).
Proof.
  intros Hcls Hwords. apply Forall_fmap.
  eapply Forall_impl; [exact Hwords|]. intros w Hw. simpl.
  destruct (capitalize_lowerWord w Hw) as (c & z & w' & -> & -> & Hc & Hz & Hw').
  constructor; [by apply Hcls|]. apply Forall_app. split.
  - eapply Forall_impl; [exact Hw'|]. intros d Hd. by apply Hcls.
  - constructor; [by apply Hcls|constructor].
Qed.

Lemma lowerWord_separatorFree words :
  Forall lowerWord words -> Forall (fun w => separatorFree w) words.
Proof.
  intros H. eapply Forall_impl; [exact H|]. intros w [_ Hw].
  eapply Forall_impl; [exact Hw|]. intros d Hd. by apply isLower_facts.
Qed.

(** X5: for words of at least two lower-case letters each, the kebab
    form of the class form of their kebab name is that name again, and
    the same holds for the snake form of a snake name. *)
Theorem toKebabCase_toPascalCase (words : list jsstring) :
  Forall lowerWord words ->
  toKebabCase (toPascalCase (join (lit "-") words)) = join (lit "-") words
  /\ toSnakeCase (toPascalCase (join (lit "_") words)) = join (lit "_") words.
Proof.
  intros Hwords. pose proof (lowerWord_separatorFree _ Hwords) as Hfree.
  change (lit "-") with ["-"%char]. change (lit "_") with ["_"%char].
  split.
  - rewrite (toPascalCase_join "-"%char words eq_refl Hfree).
    unfold toKebabCase. rewrite (separateLowerUpper_words _ _ Hwords).
    rewrite replaceRuns_id.
    + by apply toLowerCase_join_capitalize.
    + apply Forall_join; [done|]. apply capitalize_words_free; [|done].
      intros c Hc. split; by apply isLower_facts.
  - rewrite (toPascalCase_join "_"%char words eq_refl Hfree).
    unfold toSnakeCase. rewrite (separateLowerUpper_words _ _ Hwords).
    rewrite replaceRuns_id.
    + by apply toLowerCase_join_capitalize.
    + apply Forall_join; [done|]. apply capitalize_words_free; [|done].
      intros c Hc. split; by apply isLower_facts.
Qed.

Lemma toKebabCase_toPascalCase_witness :
  toKebabCase (toPascalCase (lit "user-service")) = lit "user-service"
  /\ toSnakeCase (toPascalCase (lit "user_service")) = lit "user_service".
Proof.
  apply (toKebabCase_toPascalCase [lit "user"; lit "service"]).
  repeat constructor.
Defined.

(** ** Class names of valid module names *)

Lemma isNameChar_facts c :
  isNameChar c = true ->
  c <> "["%char /\ c <> ";"%char
  /\ (isSeparator c = false ->
      isAlnum (upperChar c) = true /\ isAlnum (lowerChar c) = true).
Proof. each_char c; first [discriminate | by repeat split]. Qed.

Lemma isAlnum_facts c :
  isAlnum c = true ->
  c <> "["%char /\ c <> ";"%char /\ c <> "$"%char /\ c <> " "%char.
Proof. each_char c; first [discriminate | by repeat split]. Qed.

Lemma validName_chars m :
  validName m = true -> Forall (fun c => isNameChar c = true) m.
Proof.
  unfold validName. intros H. apply andb_true_iff in H as [_ H].
  induction m as [|c m IH]; [constructor|].
  simpl in H. apply andb_true_iff in H as [Hc H]. constructor; auto.
Qed.

Lemma splitOn_chars (P : ascii -> Prop) sep s :
  Forall P s -> Forall (Forall P) (splitOn sep s).
Proof.
  induction 1 as [|c s Hc _ IH]; simpl.
  - by repeat constructor.
  - destruct (sep c).
    + by constructor.
    + destruct (splitOn sep s) as [|w ws]; [by repeat constructor|].
      inversion IH; subst. constructor; [by constructor|done].
Qed.

Lemma toLowerCase_alnum w :
  separatorFree w ->
  Forall (fun c => isNameChar c = true) w ->
  Forall (fun c => isAlnum c = true) (toLowerCase w).
Proof.
  induction 1 as [|d w Hd _ IH]; intros Hn; [constructor|].
  inversion Hn as [|? ? Hdn Hrest]; subst. simpl. constructor; [|by apply IH].
  destruct (isNameChar_facts d Hdn) as (_ & _ & Hal). by destruct (Hal Hd).
Qed.

Lemma toPascalCase_alnum s :
  Forall (fun c => isNameChar c = true) s ->
  Forall (fun c => isAlnum c = true) (toPascalCase s).
Proof.
  intros Hs. unfold toPascalCase.
  pose proof (splitOn_words isSeparator s) as Hfree.
  pose proof (splitOn_chars _ isSeparator s Hs) as Hname.
  induction Hfree as [|w ws Hw _ IH]; [constructor|].
  inversion Hname as [|? ? Hwn Hwsn]; subst. simpl.
  apply Forall_app. split; [|by apply IH].
  clear IH Hwsn Hname. destruct Hw as [|c w Hc Hw]; [constructor|].
  inversion Hwn as [|? ? Hcn Hwn']; subst. unfold capitalize. simpl.
  constructor.
  { destruct (isNameChar_facts c Hcn) as (_ & _ & Hal).
    by destruct (Hal Hc). }
  change (slice1 (c :: w)) with w. by apply toLowerCase_alnum.
Qed.

Lemma getSingular_chars (P : ascii -> Prop) s :
  P "y"%char -> Forall P s -> Forall P (getSingular s).
Proof.
  intros Hy Hs. unfold getSingular.
  destruct (endsWith s (lit "ies")).
  - apply Forall_app. split; [by apply Forall_take|by constructor].
  - destruct (endsWith s (lit "s") && negb (endsWith s (lit "ss")))%bool;
      [by apply Forall_take|done].
Qed.

Lemma moduleClassNameOf_alnum m :
  validName m = true ->
  Forall (fun c => isAlnum c = true) (moduleClassNameOf m).
Proof.
  intros H. unfold moduleClassNameOf. apply Forall_app. split.
  - apply toPascalCase_alnum, getSingular_chars; [done|].
    by apply validName_chars.
  - by repeat constructor.
Qed.

Lemma alnum_not_in d s :
  isAlnum d = false -> Forall (fun c => isAlnum c = true) s -> d ∉ s.
Proof.
  intros Hd Hs Hin. rewrite Forall_forall in Hs.
  specialize (Hs _ Hin). congruence.
Qed.

(** X6: for a valid module name, the class form of a name and the
    class name of the module consist of letters and digits only. *)
Theorem valid_name_class_name (m : jsstring) :
  validName m = true ->
  Forall (fun c => isAlnum c = true) (toPascalCase m)
  /\ Forall (fun c => isAlnum c = true) (moduleClassNameOf m).
Proof.
  intros H. split.
  - by apply toPascalCase_alnum, validName_chars.
  - by apply moduleClassNameOf_alnum.
Qed.

Lemma valid_name_class_name_witness :
  Forall (fun c => isAlnum c = true) (toPascalCase (lit "blog_posts"))
  /\ Forall (fun c => isAlnum c = true) (moduleClassNameOf (lit "blog_posts")).
Proof. apply (valid_name_class_name (lit "blog_posts")). reflexivity. Defined.

(** ** Registrations through the updaters *)

Lemma getSubstitution_plain matched before after template :
  "$"%char ∉ template ->
  getSubstitution matched before after template = template.
Proof.
  induction template as [|c t IH]; intros H; [reflexivity|].
  cbn [getSubstitution].
  destruct (Ascii.eqb c "$"%char) eqn:E.
  - apply Ascii.eqb_eq in E. subst c. exfalso. apply H.
    apply elem_of_cons. by left.
  - f_equal. apply IH. intros Hin. apply H. apply elem_of_cons. by right.
Qed.

(** What has no [;] and no [[] before its last character stays. *)
Lemma patch_keeps_piece content importStatement moduleClassName body c :
  ";"%char ∉ body -> "["%char ∉ body ->
  occurs (body ++ [c]) content ->
  occurs (body ++ [c]) (fst (patch content importStatement moduleClassName)).
Proof.
  intros Hsemi Hbracket H. unfold patch.
  destruct (includes content moduleClassName); [done|].
  apply addToImportsArray_keeps; [done|].
  by apply addImportStatement_keeps.
Qed.

(** The class name between [{ ] and [ }] of the import statement is in
    whatever the updater returns. *)
Lemma patch_has_class_name content before moduleClassName after :
  " "%char ∉ moduleClassName ->
  occurs moduleClassName
    (fst (patch content
            (before ++ lit "{ " ++ moduleClassName ++ lit " }" ++ after)
            moduleClassName)).
Proof.
  intros Hspace. unfold patch.
  destruct (includes content moduleClassName) eqn:E.
  { by apply includes_occurs. }
  set (R := moduleClassName) in *.
  set (I := before ++ lit "{ " ++ R ++ lit " }" ++ after).
  assert (exists X Y, addImportStatement content I = X ++ I ++ Y)
    as (X & Y & HU).
  { destruct (addImportStatement_shape content I)
      as (a & b & _ & _ & [-> | [_ ->]]).
    - exists (a ++ [LF]), b. by rewrite <- !app_assoc.
    - exists a, ([LF] ++ b). by rewrite <- !app_assoc. }
  assert (addImportStatement content I
          = ((X ++ before) ++ lit "{ ") ++ R ++ lit " }" ++ (after ++ Y))
    as HU'.
  { rewrite HU. unfold I. by rewrite <- !app_assoc. }
  destruct (includes (addImportStatement content I) (lit "imports: ["))
    eqn:Eanchor.
  - apply includes_occurs in Eanchor.
    destruct (addToImportsArray_found _ R Eanchor)
      as (u1 & u2 & inserted & Hsplit & ->). simpl.
    rewrite HU', <- (app_assoc u1) in Hsplit.
    apply braced_survives in Hsplit as [H|H]; [| |done].
    + by apply occurs_app_l, occurs_app_l.
    + by apply occurs_app_r, occurs_app_r.
  - apply includes_false in Eanchor.
    rewrite (addToImportsArray_not_found _ _ Eanchor). simpl.
    rewrite HU'. apply occurs_app_r, occurs_app_l, occurs_refl.
Qed.

Lemma importStatementOf_no_bracket m :
  validName m = true ->
  exists body,
    importStatementOf (moduleClassNameOf m) m = body ++ [";"%char]
    /\ "["%char ∉ body.
Proof.
  intros Hm.
  exists (lit "import { " ++ moduleClassNameOf m ++ lit " } from './"
            ++ m ++ lit "/" ++ m ++ lit ".module'").
  split; [unfold importStatementOf; by rewrite <- !app_assoc|].
  assert ("["%char ∉ m) as Hnm.
  { intros Hin. pose proof (validName_chars m Hm) as F.
    rewrite Forall_forall in F. by destruct (isNameChar_facts _ (F _ Hin)). }
  assert ("["%char ∉ moduleClassNameOf m) as HnR
    by (by apply alnum_not_in, moduleClassNameOf_alnum).
  intros Hin.
  repeat (apply elem_of_app in Hin as [Hin|Hin];
          [first [done | by revert Hin; not_in_literal]|]).
  revert Hin. not_in_literal.
Qed.

(** X7: for a valid module name whose class name is not in the text
    yet, the result of the updater contains the import statement, and,
    when the text has [imports: [], the class name as the first entry
    after it. *)
Theorem updater_registers (moduleName content : jsstring) :
  let moduleClassName := moduleClassNameOf moduleName in
  let importStatement := importStatementOf moduleClassName moduleName in
  validName moduleName = true ->
  ~ occurs moduleClassName content ->
  occurs importStatement (fst (updater moduleName content))
  /\ (occurs (lit "imports: [") content ->
      occurs (lit "imports: [" ++ [LF] ++ lit "    " ++ moduleClassName
                ++ lit ",")
        (fst (updater moduleName content))).
Proof.
  intros R I Hm HR. unfold updater, patch. fold R. fold I.
  rewrite (proj2 (includes_false _ _) HR).
  pose proof (moduleClassNameOf_alnum _ Hm) as Halnum. fold R in Halnum.
  split.
  - destruct (importStatementOf_no_bracket _ Hm) as (body & HI & Hbody).
    fold R in HI. fold I in HI. rewrite HI.
    apply addToImportsArray_keeps; [done|]. rewrite <- HI.
    destruct (addImportStatement_shape content I)
      as (a & b & _ & _ & [-> | [_ ->]]).
    + apply occurs_app_r. rewrite <- app_assoc.
      apply occurs_app_r, occurs_app_l, occurs_refl.
    + apply occurs_app_r. rewrite <- app_assoc.
      apply occurs_app_l, occurs_refl.
  - intros Hanchor.
    assert (occurs (lit "imports: [") (addImportStatement content I)) as HU.
    { change (lit "imports: [") with (lit "imports: " ++ ["["%char]) in *.
      apply addImportStatement_keeps; [not_in_literal|done]. }
    unfold addToImportsArray. rewrite (proj2 (includes_occurs _ _) HU).
    destruct (replace_shape _ _
                (lit "imports: [" ++ [LF] ++ lit "    " ++ R ++ lit ",") HU)
      as (u1 & u2 & _ & ->). cbn [fst].
    rewrite getSubstitution_plain.
    + by exists u1, u2.
    + intros Hin.
      assert ("$"%char ∉ R) as HnR by (by apply alnum_not_in).
      repeat (apply elem_of_app in Hin as [Hin|Hin];
              [first [done | by revert Hin; not_in_literal]|]).
      revert Hin. not_in_literal.
Qed.

Lemma updater_registers_witness :
  occurs (lit "import { FooModule } from './foo/foo.module';")
    (fst (updater (lit "foo") appModuleEmptyImports))
  /\ (occurs (lit "imports: [") appModuleEmptyImports ->
      occurs (lit "imports: [" ++ [LF] ++ lit "    " ++ lit "FooModule"
                ++ lit ",")
        (fst (updater (lit "foo") appModuleEmptyImports))).
Proof.
  apply (updater_registers (lit "foo") appModuleEmptyImports).
  - reflexivity.
  - by apply includes_false.
Defined.



(** X9: the updater of [AuthCommand] is idempotent on the text, and the
    updater of a module, run after it, keeps [AuthModule] in the
    text. *)
Theorem authUpdater_idempotent (moduleName content : jsstring) :
  fst (AuthCommand.updater (fst (AuthCommand.updater content)))
  = fst (AuthCommand.updater content)
  /\ occurs (lit "AuthModule")
       (fst (updater moduleName (fst (AuthCommand.updater content)))).
Proof.
  assert (occurs (lit "AuthModule") (fst (AuthCommand.updater content))) as H.
  { unfold AuthCommand.updater.
    change (lit "import { AuthModule } from './auth/auth.module';")
      with (lit "import " ++ lit "{ " ++ lit "AuthModule" ++ lit " }"
              ++ lit " from './auth/auth.module';").
    apply patch_has_class_name. not_in_literal. }
  split.
  - unfold AuthCommand.updater at 1.
    by rewrite (patch_already_imported _ _ _ H).
  - unfold updater.
    change (lit "AuthModule") with (lit "AuthModul" ++ ["e"%char]) in *.
    apply patch_keeps_piece; [not_in_literal..|done].
Qed.

(** ** The Prisma schema *)

Lemma prismaModel_shape className :
  exists rest,
    prismaModel className = [LF; LF] ++ (lit "model " ++ className) ++ rest.
Proof.
  eexists. unfold prismaModel. cbn [unlines app lit list_ascii_of_string].
  rewrite <- (app_assoc className). reflexivity.
Qed.

(** X10: the updater of [updatePrismaSchema] only appends: the schema
    is a prefix of the result; it returns the schema as it is exactly
    when [model ] followed by the class name occurs in it; and it is
    idempotent. *)
Theorem schemaUpdater_appends (moduleName content : jsstring) :
  let className := toPascalCase (getSingular moduleName) in
  content `prefix_of` fst (schemaUpdater moduleName content)
  /\ (fst (schemaUpdater moduleName content) = content
      <-> occurs (lit "model " ++ className) content)
  /\ fst (schemaUpdater moduleName (fst (schemaUpdater moduleName content)))
     = fst (schemaUpdater moduleName content).
Proof.
  intros className.
  destruct (prismaModel_shape className) as (rest & Hshape).
  assert (forall text, occurs (lit "model " ++ className) text ->
            schemaUpdater moduleName text
            = (text,
               [LogWarning
                  (lit "Model " ++ className
                     ++ lit " already exists in Prisma schema.")])) as Hnoop.
  { intros text H. apply includes_occurs in H. unfold schemaUpdater.
    fold className. by rewrite H. }
  destruct (includes content (lit "model " ++ className)) eqn:E.
  - apply includes_occurs in E. rewrite !(Hnoop _ E). cbn [fst].
    rewrite (Hnoop _ E). by repeat split.
  - assert (schemaUpdater moduleName content
            = (content ++ prismaModel className, [])) as Hout
      by (unfold schemaUpdater; fold className; by rewrite E).
    apply includes_false in E. rewrite Hout. cbn [fst].
    split; [by exists (prismaModel className)|]. split.
    + split; [|done]. intros H. apply app_longer in H; [done|].
      by rewrite Hshape.
    + rewrite Hnoop; [done|]. rewrite Hshape.
      apply occurs_app_r, occurs_app_r, occurs_app_l, occurs_refl.
Qed.

Lemma schemaUpdater_appends_witness :
  fst (schemaUpdater (lit "users") (lit "model UserProfile {}"))
  = lit "model UserProfile {}".
Proof.
  destruct (schemaUpdater_appends (lit "users") (lit "model UserProfile {}"))
    as (_ & Hnoop & _).
  apply Hnoop. exists [], (lit "Profile {}"). reflexivity.
Defined.

(** ** The list of modules *)

Lemma trimStart_suffix s : exists p, s = p ++ trimStart s.
Proof.
  induction s as [|c s [p IH]]; [by exists []|]. simpl.
  destruct (isSpace c).
  - exists (c :: p). simpl. by rewrite <- IH.
  - by exists [].
Qed.

Lemma trimStart_head s c t : trimStart s = c :: t -> isSpace c = false.
Proof.
  induction s as [|d s IH]; [done|]. simpl.
  destruct (isSpace d) eqn:E; [done|]. by intros [= <- _].
Qed.

Lemma trimEnd_last s q c : trimEnd s = q ++ [c] -> isSpace c = false.
Proof.
  revert q. induction s as [|d s IH]; intros q; simpl.
  - by destruct q.
  - destruct (trimEnd s) as [|e t] eqn:E.
    + destruct (isSpace d) eqn:Ed; [by destruct q|].
      destruct q as [|? [|]]; [|done..]. by intros [= <-].
    + destruct q as [|f q]; [done|]. intros [= <- H]. by eapply IH.
Qed.

Lemma trimEnd_chars (P : ascii -> Prop) s :
  Forall P s -> Forall P (trimEnd s).
Proof.
  induction 1 as [|c s Hc _ IH]; simpl; [constructor|].
  destruct (trimEnd s); [destruct (isSpace c); by repeat constructor|].
  by constructor.
Qed.

Lemma trimStart_chars (P : ascii -> Prop) s :
  Forall P s -> Forall P (trimStart s).
Proof.
  induction 1 as [|c s Hc Hs IH]; simpl; [constructor|].
  destruct (isSpace c); [done|by constructor].
Qed.

Lemma trimEnd_id q c : isSpace c = false -> trimEnd (q ++ [c]) = q ++ [c].
Proof.
  intros Hc. induction q as [|d q IH]; simpl; [by rewrite Hc|].
  rewrite IH. by destruct q.
Qed.

Lemma trim_clean m :
  AllCommand.cleanName m -> trim m = m /\ trim (" "%char :: m) = m.
Proof.
  intros (Hne & _ & Hhead & Hlast).
  destruct m as [|c m]; [done|].
  assert (isSpace c = false) as Hc by (by eapply Hhead).
  destruct (exists_last (l := c :: m) Hne) as (q & z & Hq).
  assert (isSpace z = false) as Hz by (by eapply Hlast).
  unfold trim. split.
  - rewrite Hq, (trimEnd_id _ _ Hz), <- Hq. simpl. by rewrite Hc.
  - assert (trimEnd (" "%char :: c :: m) = " "%char :: c :: m) as ->.
    { change (" "%char :: c :: m) with ((" "%char :: []) ++ c :: m).
      rewrite Hq, app_assoc. by apply trimEnd_id. }
    simpl. by rewrite Hc.
Qed.

Lemma trim_is_clean w :
  Forall (fun c => Ascii.eqb ","%char c = false) w ->
  trim w <> [] -> AllCommand.cleanName (trim w).
Proof.
  intros Hw Hne. split; [done|]. split; [|split].
  - intros Hin.
    pose proof (trimStart_chars _ _ (trimEnd_chars _ _ Hw)) as F.
    rewrite Forall_forall in F. specialize (F _ Hin). discriminate F.
  - intros c t H. by apply trimStart_head in H.
  - intros t c H. destruct (trimStart_suffix (trimEnd w)) as [p Hp].
    unfold trim in H. rewrite H, app_assoc in Hp.
    by apply trimEnd_last in Hp.
Qed.

Lemma splitOn_cons_keep sep c s :
  sep c = false ->
  exists w ws, splitOn sep s = w :: ws
               /\ splitOn sep (c :: s) = (c :: w) :: ws.
Proof.
  intros Hc. simpl. rewrite Hc.
  destruct s as [|d s]; [by exists [], []|].
  simpl. destruct (sep d).
  - by eexists _, _.
  - destruct (splitOn sep s); by eexists _, _.
Qed.

Lemma splitOn_join_comma x xs :
  Forall AllCommand.cleanName (x :: xs) ->
  splitOn (Ascii.eqb ","%char) (join (lit ", ") (x :: xs))
  = x :: map (cons " "%char) xs.
Proof.
  assert (forall m, AllCommand.cleanName m ->
            Forall (fun c => Ascii.eqb ","%char c = false) m) as Hfree.
  { intros m (_ & Hcomma & _). apply Forall_forall. intros c Hin.
    destruct (Ascii.eqb ","%char c) eqn:E; [|done].
    apply Ascii.eqb_eq in E. by subst. }
  revert x. induction xs as [|y ys IH]; intros x Hx.
  - inversion Hx; subst. simpl. by apply splitOn_single, Hfree.
  - inversion Hx as [|? ? Hcx Hrest]; subst.
    change (join (lit ", ") (x :: y :: ys))
      with (x ++ ","%char :: " "%char :: join (lit ", ") (y :: ys)).
    rewrite splitOn_app_sep; [|by apply Hfree|done].
    destruct (splitOn_cons_keep (Ascii.eqb ","%char) " "%char
                (join (lit ", ") (y :: ys)) eq_refl) as (w & ws & Hs & ->).
    rewrite (IH y Hrest) in Hs. by injection Hs as <- <-.
Qed.

(** X11: the names that the filter of the modules prompt returns are
    not empty, have no comma and no white space at either end; and the
    filter reads a list of such names back from the text that
    [join(", ")] makes of it. *)
Theorem modulesFilter_clean (input : jsstring) (names : list jsstring) :
  Forall AllCommand.cleanName (AllCommand.modulesFilter input)
  /\ (Forall AllCommand.cleanName names ->
      AllCommand.modulesFilter (join (lit ", ") names) = names).
Proof.
  split.
  - unfold AllCommand.modulesFilter.
    destruct (Nat.eqb (length input) 0); [constructor|].
    pose proof (splitOn_words (Ascii.eqb ","%char) input) as H.
    induction H as [|w ws Hw _ IH]; [constructor|]. simpl.
    destruct (trim w) as [|c t] eqn:E; [done|]. simpl.
    constructor; [|done]. rewrite <- E. apply trim_is_clean; [done|].
    by rewrite E.
  - intros Hnames. unfold AllCommand.modulesFilter.
    destruct names as [|x xs]; [reflexivity|].
    assert (Nat.eqb (length (join (lit ", ") (x :: xs))) 0 = false) as ->.
    { inversion Hnames as [|? ? (Hne & _) _]; subst.
      destruct x; [done|]. by destruct xs. }
    rewrite (splitOn_join_comma _ _ Hnames).
    inversion Hnames as [|? ? Hx Hxs]; subst. cbn [map].
    rewrite (proj1 (trim_clean _ Hx)).
    assert (negb (Nat.eqb (length x) 0) = true) as Hlen
      by (destruct Hx as (Hne & _); by destruct x).
    cbn [List.filter]. rewrite Hlen. f_equal.
    clear Hnames Hx Hlen. induction Hxs as [|y ys Hy _ IH]; [done|].
    cbn [map List.filter]. rewrite (proj2 (trim_clean _ Hy)).
    assert (negb (Nat.eqb (length y) 0) = true) as ->
      by (destruct Hy as (Hne & _); by destruct y).
    by rewrite IH.
Qed.

Lemma modulesFilter_clean_witness :
  AllCommand.modulesFilter (lit "posts, blog comments, tags")
  = [lit "posts"; lit "blog comments"; lit "tags"].
Proof.
  apply (modulesFilter_clean []
           [lit "posts"; lit "blog comments"; lit "tags"]).
  repeat constructor; try done; try not_in_literal.
  - by intros c t [= <- _].
  - intros t c H. apply (f_equal (@rev ascii)) in H.
    rewrite rev_app_distr in H. by injection H as <- _.
  - by intros c t [= <- _].
  - intros t c H. apply (f_equal (@rev ascii)) in H.
    rewrite rev_app_distr in H. by injection H as <- _.
  - by intros c t [= <- _].
  - intros t c H. apply (f_equal (@rev ascii)) in H.
    rewrite rev_app_distr in H. by injection H as <- _.
Defined.

(** X12: with authentication on and no user module in the request,
    [user] is put in front of the very array of the project details:
    the loop starts with [users], and the summary lists [user] as
    well. *)
Theorem selectModules_unshifts_in_place (h : AllCommand.heap)
    (projectDetails : AllCommand.ProjectDetails) :
  let r := AllCommand.modules projectDetails in
  AllCommand.auth projectDetails = true ->
  AllCommand.arrayIncludes h r (lit "user") = false ->
  AllCommand.arrayIncludes h r (lit "users") = false ->
  AllCommand.readArray h r <> [] ->
  exists h',
    AllCommand.selectModules h projectDetails = (h', r, [])
    /\ AllCommand.readArray h' r = lit "user" :: AllCommand.readArray h r
    /\ AllCommand.modulesExecuted h projectDetails
       = lit "users" :: map getPlural (AllCommand.readArray h r)
    /\ AllCommand.modulesSummary h' projectDetails
       = lit "- Modules: user, " ++ join (lit ", ") (AllCommand.readArray h r).
Proof.
  intros r Hauth Huser Husers Hne.
  assert (AllCommand.selectModules h projectDetails
          = (AllCommand.arrayUnshift h r (lit "user"), r, [])) as Hsel.
  { unfold AllCommand.selectModules. fold r.
    by rewrite Hauth, Huser, Husers. }
  assert (AllCommand.readArray (AllCommand.arrayUnshift h r (lit "user")) r
          = lit "user" :: AllCommand.readArray h r) as Hread.
  { unfold AllCommand.readArray, AllCommand.arrayUnshift in *.
    rewrite list_lookup_alter_eq. by destruct (h !! r). }
  eexists. split; [exact Hsel|]. split; [exact Hread|]. split.
  - unfold AllCommand.modulesExecuted. fold r. rewrite Hsel, Hread.
    by destruct (AllCommand.readArray h r).
  - unfold AllCommand.modulesSummary. fold r. rewrite Hread.
    by destruct (AllCommand.readArray h r).
Qed.

Lemma selectModules_unshifts_in_place_witness :
  AllCommand.modulesExecuted requestHeapWithoutUser request
  = [lit "users"; lit "posts"].
Proof.
  destruct (selectModules_unshifts_in_place requestHeapWithoutUser request)
    as (h' & _ & _ & H & _); try done.
Defined.

(** ** Strategies, architectures and dependencies *)

(** X13: in [DatabaseCommand.execute], a type that the factory does not
    know does not end the command: the error is logged and the prompt
    decides; every value the prompt offers resolves, so the strategy is
    always found. *)
Theorem resolveStrategy_always_resolves (dbType : option jsstring)
    (answer : jsstring) :
  answer ∈ promptChoices ->
  fst (DatabaseCommand.resolveStrategy dbType answer) = Return PrismaStrategy
  /\ (forall type,
        dbType = Some type -> type <> [] ->
        toLowerCase type <> lit "prisma" ->
        snd (DatabaseCommand.resolveStrategy dbType answer)
        = [LogError (lit "Error: Unsupported database strategy: " ++ type)])
  /\ (dbType = None \/ dbType = Some []
      \/ (exists type, dbType = Some type /\ toLowerCase type = lit "prisma") ->
      snd (DatabaseCommand.resolveStrategy dbType answer) = []).
Proof.
  intros Hanswer.
  assert (promptForStrategy answer = Return PrismaStrategy) as Hprompt.
  { apply list_elem_of_singleton in Hanswer. by subst. }
  unfold DatabaseCommand.resolveStrategy. rewrite Hprompt.
  destruct dbType as [type|].
  - destruct type as [|c type].
    + split; [done|]. split; [by intros ? [= <-]|done].
    + cbn [length Nat.eqb]. unfold getStrategy.
      destruct (strictEq (toLowerCase (c :: type)) (lit "prisma")) eqn:E.
      * split; [done|]. split; [|done]. intros ? [= <-] _ H.
        by apply strictEq_eq in E.
      * split; [done|]. split; [by intros ? [= <-]|].
        apply strictEq_neq in E. intros [H | [H | (t & [= <-] & H)]]; done.
  - by repeat split.
Qed.

Lemma resolveStrategy_always_resolves_witness :
  DatabaseCommand.resolveStrategy (Some (lit "mongoose")) (lit "prisma")
  = (Return PrismaStrategy,
     [LogError (lit "Error: Unsupported database strategy: mongoose")]).
Proof.
  destruct (resolveStrategy_always_resolves (Some (lit "mongoose"))
              (lit "prisma")) as (H1 & H2 & _).
  - apply list_elem_of_singleton. reflexivity.
  - specialize (H2 (lit "mongoose") eq_refl).
    destruct (DatabaseCommand.resolveStrategy (Some (lit "mongoose"))
                (lit "prisma")) as [s l].
    simpl in *. rewrite H1, H2; [reflexivity|discriminate..].
Defined.

Lemma assignAll_lookup_other target entries (k : jsstring) :
  k ∉ entries.*1 ->
  DatabaseCommand.assignAll target entries !! k = target !! k.
Proof.
  unfold DatabaseCommand.assignAll. revert target.
  induction entries as [|[k' v'] es IH]; intros target Hk; [done|].
  simpl. rewrite IH.
  - apply lookup_insert_ne. intros ->. apply Hk. simpl.
    apply elem_of_cons. by left.
  - intros Hin. apply Hk. simpl. apply elem_of_cons. by right.
Qed.

Lemma assignAll_lookup_entry target entries (k v : jsstring) :
  NoDup entries.*1 -> (k, v) ∈ entries ->
  DatabaseCommand.assignAll target entries !! k = Some v.
Proof.
  unfold DatabaseCommand.assignAll. revert target.
  induction entries as [|[k' v'] es IH]; intros target Hnd Hin.
  { by apply elem_of_nil in Hin. }
  simpl in *. apply NoDup_cons in Hnd as [Hk' Hnd].
  apply elem_of_cons in Hin as [[= -> ->] | Hin].
  - pose proof (assignAll_lookup_other (<[k':=v']> target) es k' Hk') as H.
    unfold DatabaseCommand.assignAll in H. rewrite H.
    apply lookup_insert_eq.
  - by apply IH.
Qed.

Lemma assignAll_idempotent target entries :
  NoDup entries.*1 ->
  DatabaseCommand.assignAll (DatabaseCommand.assignAll target entries) entries
  = DatabaseCommand.assignAll target entries.
Proof.
  intros Hnd. apply map_eq. intros k.
  destruct (decide (k ∈ entries.*1)) as [Hin|Hin].
  - apply list_elem_of_fmap in Hin as ([k' v] & -> & Hin). simpl.
    by rewrite !(assignAll_lookup_entry _ _ _ _ Hnd Hin).
  - by rewrite !assignAll_lookup_other.
Qed.

Lemma strategy_entries_NoDup strategy :
  NoDup (getDependencies strategy).*1
  /\ NoDup (getDevDependencies strategy).*1.
Proof.
  destruct strategy; simpl; split; apply NoDup_singleton.
Qed.

(** X14: [updatePackageJson] gives [package.json] every dependency and
    development dependency of the strategy at the version of the
    strategy, leaves every other dependency as it is, and changes
    nothing when it is run again. *)
Theorem updatePackageJson_merges (packageJson : DatabaseCommand.PackageJson)
    (databaseStrategy : DatabaseStrategy) :
  exists deps devDeps,
    let updated :=
      {| DatabaseCommand.dependencies := Some deps;
         DatabaseCommand.devDependencies := Some devDeps |} in
    DatabaseCommand.updatePackageJson (Some packageJson) databaseStrategy
    = (Some updated, [])
    /\ (forall name version,
          (name, version) ∈ getDependencies databaseStrategy ->
          deps !! name = Some version)
    /\ (forall name version,
          (name, version) ∈ getDevDependencies databaseStrategy ->
          devDeps !! name = Some version)
    /\ (forall name,
          name ∉ (getDependencies databaseStrategy).*1 ->
          deps !! name
          = default ∅ (DatabaseCommand.dependencies packageJson) !! name)
    /\ (forall name,
          name ∉ (getDevDependencies databaseStrategy).*1 ->
          devDeps !! name
          = default ∅ (DatabaseCommand.devDependencies packageJson) !! name)
    /\ DatabaseCommand.updatePackageJson (Some updated) databaseStrategy
       = (Some updated, []).
Proof.
  destruct (strategy_entries_NoDup databaseStrategy) as [Hnd Hndd].
  eexists _, _. cbn zeta. split; [reflexivity|].
  split; [intros name version; by apply assignAll_lookup_entry|].
  split; [intros name version; by apply assignAll_lookup_entry|].
  split; [intros name; by apply assignAll_lookup_other|].
  split; [intros name; by apply assignAll_lookup_other|].
  unfold DatabaseCommand.updatePackageJson. cbn [default
    DatabaseCommand.dependencies DatabaseCommand.devDependencies].
  unfold id. by rewrite !assignAll_idempotent.
Qed.

Lemma updatePackageJson_merges_witness :
  exists deps devDeps,
    DatabaseCommand.updatePackageJson
      (Some {| DatabaseCommand.dependencies :=
                 Some {[ lit "@nestjs/core" := lit "^10.0.0" ]};
               DatabaseCommand.devDependencies := None |})
      PrismaStrategy
    = (Some {| DatabaseCommand.dependencies := Some deps;
               DatabaseCommand.devDependencies := Some devDeps |}, [])
    /\ deps !! lit "@prisma/client" = Some (lit "^5.0.0")
    /\ deps !! lit "@nestjs/core" = Some (lit "^10.0.0")
    /\ devDeps !! lit "prisma" = Some (lit "^5.0.0").
Proof.
  destruct (updatePackageJson_merges
              {| DatabaseCommand.dependencies :=
                   Some {[ lit "@nestjs/core" := lit "^10.0.0" ]};
                 DatabaseCommand.devDependencies := None |}
              PrismaStrategy)
    as (deps & devDeps & Hout & Hdeps & Hdev & Hother & _).
  exists deps, devDeps. split; [exact Hout|]. split; [|split].
  - apply Hdeps. apply list_elem_of_singleton. reflexivity.
  - rewrite Hother.
    + apply lookup_singleton_eq.
    + intros Hin. apply list_elem_of_singleton in Hin. discriminate Hin.
  - apply Hdev. apply list_elem_of_singleton. reflexivity.
Defined.

(** ** First letters *)

Lemma isLower_upperChar c : isLower (upperChar c) = false.
Proof. char_fact c. Qed.

(** X17: the class form never starts with a lower-case letter and the
    property form never starts with an upper-case letter. *)
Theorem case_forms_first_letter (str : jsstring) (c : ascii) (t : jsstring) :
  (toPascalCase str = c :: t -> isLower c = false)
  /\ (toCamelCase str = c :: t -> isUpper c = false).
Proof.
  split.
  - unfold toPascalCase.
    induction (splitOn isSeparator str) as [|w ws IH]; [done|].
    destruct w as [|d w]; [exact IH|].
    unfold capitalize. simpl. intros [= <- _]. apply isLower_upperChar.
  - unfold toCamelCase. destruct (toPascalCase str) as [|d p]; [done|].
    simpl. intros [= <- _]. apply isUpper_lowerChar.
Qed.

Lemma case_forms_first_letter_witness :
  isLower "U"%char = false /\ isUpper "u"%char = false.
Proof.
  split.
  - apply (case_forms_first_letter (lit "user-service") "U"%char
             (lit "serService")). reflexivity.
  - apply (case_forms_first_letter (lit "user-service") "u"%char
             (lit "serService")). reflexivity.
Defined.
